(** * fetch-youtube-videos.ts: a shallow embedding and its properties

    The script resolves a channel handle, walks the uploads playlist page by
    page, fetches the details of every video in batches of 50, sorts the
    videos by view count and prints a table and a JSON file.

    The embedding follows the source function by function.  JavaScript
    strings are sequences of UTF-16 code units, numbers that hold counts are
    integers, the network is an oracle threaded through a state, and
    [console] output and the file written are events of a trace. *)

From Stdlib Require Import String Ascii.
From Stdlib Require Import ZArith NArith List Bool Lia.
From Stdlib Require Import Sorting.Permutation Sorting.Sorted.
From Stdlib Require Import Floats.SpecFloat.
From Equations Require Import Equations.
Import ListNotations.

Set Implicit Arguments.
Local Open Scope N_scope.

(** ** JavaScript strings *)

(** A string is the list of its UTF-16 code units; [length], [slice],
    [padStart] and the regular expression below all work on code units. *)
Definition char16 := N.
Definition jsstring := list char16.

(** A string literal of the source (ASCII in this script). *)
Definition lit (s : string) : jsstring :=
  map N_of_ascii (list_ascii_of_string s).

Definition char_eqb (a b : char16) : bool := N.eqb a b.

Fixpoint str_eqb (a b : jsstring) : bool :=
  match a, b with
  | [], [] => true
  | x :: a', y :: b' => char_eqb x y && str_eqb a' b'
  | _, _ => false
  end.

(** Truthiness of a value of type [string | undefined]: [undefined] and the
    empty string are falsy. *)
Definition truthy (v : option jsstring) : bool :=
  match v with
  | Some (_ :: _) => true
  | _ => false
  end.

(** [`${v}`] for a value of type [string | undefined]. *)
Definition template (v : option jsstring) : jsstring :=
  match v with
  | Some s => s
  | None => lit "undefined"
  end.

(** [s.slice(i, j)] for [0 <= i <= j]. *)
Definition slice {A} (i j : nat) (s : list A) : list A :=
  firstn (j - i) (skipn i s).

(** [s.padStart(targetLength, padString)]: the filler is [padString]
    repeated and cut to the missing length. *)
Definition padStart (s : jsstring) (targetLength : nat) (padString : jsstring) : jsstring :=
  let fillLen := (targetLength - length s)%nat in
  firstn fillLen (concat (repeat padString fillLen)) ++ s.

(** [s.replace(c, "")] for a one-character pattern: the first occurrence
    only. *)
Fixpoint remove_first (c : char16) (s : jsstring) : jsstring :=
  match s with
  | [] => []
  | x :: s' => if char_eqb x c then s' else x :: remove_first c s'
  end.

(** [parts.join(sep)]. *)
Fixpoint join (sep : jsstring) (parts : list jsstring) : jsstring :=
  match parts with
  | [] => []
  | [p] => p
  | p :: ps => p ++ sep ++ join sep ps
  end.

(** Decimal digits of a natural number: [n.toString()] for an integer
    [0 <= n < 10^21]. *)
Fixpoint uint_chars (d : Decimal.uint) : jsstring :=
  match d with
  | Decimal.Nil => []
  | Decimal.D0 d => 48 :: uint_chars d
  | Decimal.D1 d => 49 :: uint_chars d
  | Decimal.D2 d => 50 :: uint_chars d
  | Decimal.D3 d => 51 :: uint_chars d
  | Decimal.D4 d => 52 :: uint_chars d
  | Decimal.D5 d => 53 :: uint_chars d
  | Decimal.D6 d => 54 :: uint_chars d
  | Decimal.D7 d => 55 :: uint_chars d
  | Decimal.D8 d => 56 :: uint_chars d
  | Decimal.D9 d => 57 :: uint_chars d
  end.

Definition N_toString (n : N) : jsstring := uint_chars (N.to_uint n).
Definition nat_toString (n : nat) : jsstring := N_toString (N.of_nat n).

(** [num.toString()] for an integer-valued number below [10^21] in
    absolute value. *)
Definition Z_toString (z : Z) : jsstring :=
  match z with
  | Zneg p => lit "-" ++ N_toString (Npos p)
  | _ => N_toString (Z.to_N z)
  end.

(** ** formatDuration *)

(** [\d]: an ASCII digit. *)
Definition is_digit (c : char16) : bool := (48 <=? c) && (c <=? 57).

(** [\d+], greedy: the longest run of digits at the head of [s], and the
    rest. *)
Fixpoint span_digits (s : jsstring) : jsstring * jsstring :=
  match s with
  | c :: s' =>
      if is_digit c
      then let (ds, rest) := span_digits s' in (c :: ds, rest)
      else ([], s)
  | [] => ([], [])
  end.

(** One optional group [(?:(\d+)U)?] at the head of [s]: the capture (or
    [undefined]) and what follows the group.  The group is greedy, and giving
    digits back cannot make it match: the character after a shorter run is a
    digit, not the unit letter.  Whatever follows the group in the pattern
    is optional, so the matcher never returns to this choice. *)
Definition unit_group (u : char16) (s : jsstring) : option jsstring * jsstring :=
  match span_digits s with
  | (d :: ds, c :: rest) =>
      if char_eqb c u then (Some (d :: ds), rest) else (None, s)
  | _ => (None, s)
  end.

(** The captures [match[1]], [match[2]], [match[3]]. *)
Record RegExpMatch := {
  group1 : option jsstring;
  group2 : option jsstring;
  group3 : option jsstring
}.

(** The pattern tried at the head of [s]. *)
Definition match_here (s : jsstring) : option RegExpMatch :=
  match s with
  | p :: t :: r =>
      if char_eqb p 80 && char_eqb t 84 then
        let (h, r1) := unit_group 72 r in
        let (m, r2) := unit_group 77 r1 in
        let (sec, _) := unit_group 83 r2 in
        Some {| group1 := h; group2 := m; group3 := sec |}
      else None
  | _ => None
  end.

(** [isoDuration.match(/PT(?:(\d+)H)?(?:(\d+)M)?(?:(\d+)S)?/)]: the pattern
    has no anchor, so it is tried at every position from the left and the
    first success is the result; [None] is [null]. *)
Fixpoint duration_match (s : jsstring) : option RegExpMatch :=
  match match_here s with
  | Some m => Some m
  | None =>
      match s with
      | [] => None
      | _ :: s' => duration_match s'
      end
  end.

Definition formatDuration (isoDuration : jsstring) : jsstring :=
  match duration_match isoDuration with
  | None => isoDuration
  | Some m =>
      let hours :=
        if truthy (group1 m) then template (group1 m) ++ lit ":" else [] in
      let minutes :=
        if truthy (group2 m)
        then padStart (template (group2 m))
                      (if truthy (Some hours) then 2 else 1) (lit "0")
        else lit "0" in
      let seconds :=
        if truthy (group3 m)
        then padStart (template (group3 m)) 2 (lit "0")
        else lit "00" in
      hours ++ minutes ++ lit ":" ++ seconds
  end.

(** The language of the pattern, read off the regular expression: the word
    [PT] followed by up to three groups, each a non-empty run of digits and
    its unit letter. *)
Inductive unit_word (u : char16) : jsstring -> Prop :=
| unit_absent : unit_word u []
| unit_present ds :
    ds <> [] -> Forall (fun c => is_digit c = true) ds ->
    unit_word u (ds ++ [u]).

Definition duration_word (w : jsstring) : Prop :=
  exists h m s,
    unit_word 72 h /\ unit_word 77 m /\ unit_word 83 s /\
    w = lit "PT" ++ h ++ m ++ s.

(** [String.prototype.match] searches: a string matches when some substring
    of it is a word of the pattern. *)
Definition matches_pattern (s : jsstring) : Prop :=
  exists pre w post, duration_word w /\ s = pre ++ w ++ post.

Definition contains (needle s : jsstring) : Prop :=
  exists pre post, s = pre ++ needle ++ post.

Example formatDuration_ex1 : formatDuration (lit "PT1H2M10S") = lit "1:02:10".
Proof. reflexivity. Qed.
Example formatDuration_ex2 : formatDuration (lit "PT15M33S") = lit "15:33".
Proof. reflexivity. Qed.
Example formatDuration_ex3 : formatDuration (lit "xxPT7M") = lit "7:00".
Proof. reflexivity. Qed.

(** ** formatNumber *)

(** A number that is the operand of [/] and [toFixed] is an IEEE-754
    binary64 value; the Standard Library's executable specification of
    binary floating point supplies the division. *)
Definition double := spec_float.

(** The number an integer literal or an integer count denotes (exact below
    [2^53]). *)
Definition of_int (z : Z) : double := binary_normalize 53 1024 z 0 false.

(** [x / y]. *)
Definition fdiv (x y : double) : double := SFdiv 53 1024 x y.

(** The integer [n] for which [n / 10 - x] is as close to zero as possible,
    the larger one when there are two: [floor (10 * x + 1/2)] on the exact
    value [m * 2^e] of a positive number. *)
Definition tenths (m : positive) (e : Z) : Z :=
  if (0 <=? e)%Z
  then (10 * Zpos m * 2 ^ e)%Z
  else ((20 * Zpos m + 2 ^ (- e)) / 2 ^ (1 - e))%Z.

(** The digits of [n] tenths: the integer part, a point, one digit. *)
Definition show_tenths (n : Z) : jsstring :=
  Z_toString (n / 10) ++ lit "." ++ Z_toString (n mod 10).

(** [x.toFixed(1)] for [|x| < 10^21]; above that bound JavaScript switches
    to the exponent notation of [toString], which this script never
    reaches with a count below [2^53]. *)
Definition toFixed1 (x : double) : jsstring :=
  match x with
  | S754_zero _ => lit "0.0"
  | S754_finite false m e => show_tenths (tenths m e)
  | S754_finite true m e => lit "-" ++ show_tenths (tenths m e)
  | S754_infinity false => lit "Infinity"
  | S754_infinity true => lit "-Infinity"
  | S754_nan => lit "NaN"
  end.

(** [num] is an integer-valued number. *)
Definition formatNumber (num : Z) : jsstring :=
  if (1000000 <=? num)%Z then
    toFixed1 (fdiv (of_int num) (of_int 1000000)) ++ lit "M"
  else if (1000 <=? num)%Z then
    toFixed1 (fdiv (of_int num) (of_int 1000)) ++ lit "K"
  else Z_toString num.

Example formatNumber_ex1 : formatNumber 1150000 = lit "1.1M".
Proof. vm_compute. reflexivity. Qed.
Example formatNumber_ex2 : formatNumber 1250000 = lit "1.3M".
Proof. vm_compute. reflexivity. Qed.
Example formatNumber_ex3 : formatNumber 999950 = lit "1000.0K".
Proof. vm_compute. reflexivity. Qed.
Example formatNumber_ex4 : formatNumber 1050000 = lit "1.1M".
Proof. vm_compute. reflexivity. Qed.
Example formatNumber_ex5 : formatNumber 1049999 = lit "1.0M".
Proof. vm_compute. reflexivity. Qed.
Example formatNumber_ex6 : formatNumber 2300000 = lit "2.3M".
Proof. vm_compute. reflexivity. Qed.

(** ** Data model *)

Local Open Scope nat_scope.

(** [interface Video].  The three counts are integer-valued numbers. *)
Record Video := {
  id : jsstring;
  title : jsstring;
  publishedAt : jsstring;
  viewCount : Z;
  likeCount : Z;
  commentCount : Z;
  duration : jsstring;
  url : jsstring
}.

(** The JSON bodies of the API, as far as the script reads them.  A nested
    object the script reads through may be missing ([None]), and reading a
    property of a missing object throws a [TypeError]; the strings at the
    leaves are present whenever their object is.  One record covers the
    three kinds of resource (channel, playlist item, video): each function
    reads only the fields of its own kind. *)
Module Api.

Record Snippet := {
  title : jsstring;
  publishedAt : jsstring
}.

(** A count arrives as the decimal string of an unsigned integer, or is
    absent.  It is represented by the integer it denotes: the value
    [parseInt] returns for such a string. *)
Record Statistics := {
  viewCount : option N;
  likeCount : option N;
  commentCount : option N
}.

Record RelatedPlaylists := {
  uploads : jsstring
}.

Record ContentDetails := {
  relatedPlaylists : option RelatedPlaylists;
  videoId : jsstring;
  duration : jsstring
}.

Record Resource := {
  id : jsstring;
  snippet : option Snippet;
  statistics : option Statistics;
  contentDetails : option ContentDetails
}.

(** [data]: the parsed body of a response. *)
Record Response := {
  items : option (list Resource);
  nextPageToken : option jsstring
}.

End Api.

(** An entry of [jsonOutput]: [{ rank, ...v, durationFormatted }]. *)
Record OutputEntry := {
  rank : nat;
  video : Video;
  durationFormatted : jsstring
}.

(** ** Effects *)

(** What a stage can throw. *)
Inductive exn :=
| Error (message : jsstring)   (* [new Error(message)] *)
| TypeError                    (* a property read on [undefined] *)
| Rejected (reason : jsstring) (* [fetch] or [res.json()] rejected *).

(** What the process does to the outside, in order. *)
Inductive event :=
| EFetch (request : jsstring)            (* [fetch(url)] *)
| EStderr (line : jsstring)              (* [console.error(line)] *)
| EStderrExn (e : exn)                   (* [console.error(err)] *)
| EStdout (line : jsstring)              (* [console.log(line)] *)
| EWrite (path : jsstring) (content : list OutputEntry)
    (* [Bun.write(path, JSON.stringify(content, null, 2))] *).

(** How a computation ends: with a value, with an exception, with
    [process.exit(code)], or not within the steps allowed to a loop. *)
Inductive outcome (A : Type) :=
| Ok (a : A)
| Throw (e : exn)
| Exit (code : Z)
| OutOfFuel.
Arguments Ok {A} a.
Arguments Throw {A} e.
Arguments Exit {A} code.
Arguments OutOfFuel {A}.

Definition is_write (ev : event) : bool :=
  match ev with EWrite _ _ => true | _ => false end.

(** The requests of a trace, in order. *)
Fixpoint fetches (tr : list event) : list jsstring :=
  match tr with
  | [] => []
  | EFetch u :: tr' => u :: fetches tr'
  | _ :: tr' => fetches tr'
  end.

(** ** Sorting *)

(** [array.sort(compare)].  The language requires the sort to be stable, and
    with a consistent comparator its result is the one stable sorted
    permutation; insertion from the right computes it.  An element moves
    behind its neighbour only when [compare] is positive. *)
Fixpoint insert_sorted {A} (compare : A -> A -> Z) (x : A) (l : list A) : list A :=
  match l with
  | [] => [x]
  | y :: l' =>
      if (0 <? compare x y)%Z then y :: insert_sorted compare x l'
      else x :: l
  end.

Definition sort {A} (compare : A -> A -> Z) (l : list A) : list A :=
  fold_right (insert_sorted compare) [] l.

(** [array.map((v, i) => f(v, i))], and the order in which
    [array.forEach((v, i) => ...)] visits. *)
Fixpoint mapi_from {A B} (i : nat) (f : A -> nat -> B) (l : list A) : list B :=
  match l with
  | [] => []
  | x :: l' => f x i :: mapi_from (S i) f l'
  end.

Definition mapi {A B} (f : A -> nat -> B) (l : list A) : list B :=
  mapi_from 0 f l.

(** ** The report: pure parts of [main] *)

Definition CHANNEL_HANDLE : jsstring := lit "@aidotengineer".

(** [videos.sort((a, b) => b.viewCount - a.viewCount)]. *)
Definition sortByViews (videos : list Video) : list Video :=
  sort (fun a b => (viewCount b - viewCount a)%Z) videos.

(** The title cell of a table row. *)
Definition rowTitle (v : Video) : jsstring :=
  if 60 <? length (title v)
  then slice 0 57 (title v) ++ lit "..."
  else title v.

(** The line printed for [video] at [index]. *)
Definition tableRow (v : Video) (index : nat) : jsstring :=
  lit "| " ++ nat_toString (index + 1) ++
  lit " | " ++ formatNumber (viewCount v) ++
  lit " | " ++ formatNumber (likeCount v) ++
  lit " | " ++ formatDuration (duration v) ++
  lit " | " ++ rowTitle v ++
  lit " | " ++ url v ++ lit " |".

Definition jsonOutput (videos : list Video) : list OutputEntry :=
  mapi (fun v i =>
          {| rank := i + 1;
             video := v;
             durationFormatted := formatDuration (duration v) |})
       videos.

(** ** The pipeline *)

Declare Scope js_scope.
Delimit Scope js_scope with js.

(** A property read through an object that may be [undefined]. *)
Definition read {A} (o : option A) : exn + A :=
  match o with
  | Some a => inr a
  | None => inl TypeError
  end.

(** [parseInt(count || "0")] on a count of the API. *)
Definition parseCount (count : option N) : Z :=
  match count with
  | Some n => Z.of_N n
  | None => 0%Z
  end.

(** The object literal pushed for [item] in [getVideoDetails]. *)
Definition videoOfItem (item : Api.Resource) : exn + Video :=
  match read (Api.snippet item) with
  | inl e => inl e
  | inr snippet =>
      match read (Api.statistics item) with
      | inl e => inl e
      | inr statistics =>
          match read (Api.contentDetails item) with
          | inl e => inl e
          | inr contentDetails =>
              inr {| id := Api.id item;
                     title := Api.title snippet;
                     publishedAt := Api.publishedAt snippet;
                     viewCount := parseCount (Api.viewCount statistics);
                     likeCount := parseCount (Api.likeCount statistics);
                     commentCount := parseCount (Api.commentCount statistics);
                     duration := Api.duration contentDetails;
                     url := lit "https://www.youtube.com/watch?v=" ++ Api.id item |}
          end
      end
  end.

(** [for (const item of items) videos.push({...})]. *)
Fixpoint pushVideos (videos : list Video) (items : list Api.Resource)
  : exn + list Video :=
  match items with
  | [] => inr videos
  | item :: rest =>
      match videoOfItem item with
      | inl e => inl e
      | inr v => pushVideos (videos ++ [v]) rest
      end
  end.

(** [for (const item of items) videoIds.push(item.contentDetails.videoId)]. *)
Fixpoint pushVideoIds (videoIds : list jsstring) (items : list Api.Resource)
  : exn + list jsstring :=
  match items with
  | [] => inr videoIds
  | item :: rest =>
      match read (Api.contentDetails item) with
      | inl e => inl e
      | inr contentDetails =>
          pushVideoIds (videoIds ++ [Api.videoId contentDetails]) rest
      end
  end.

(** [data.items || []]. *)
Definition itemsOrEmpty (data : Api.Response) : list Api.Resource :=
  match Api.items data with
  | Some items => items
  | None => []
  end.

Section Pipeline.

(** The network: a state, and what [await (await fetch(url)).json()]
    yields in it, a parsed body or a rejection. *)
Variable World : Type.
Variable fetch : jsstring -> World -> (exn + Api.Response) * World.

(** [process.env.YOUTUBE_API_KEY]. *)
Variable API_KEY : option jsstring.

Definition State : Type := World * list event.

Definition M (A : Type) : Type := State -> outcome A * State.

Definition ret {A} (a : A) : M A := fun st => (Ok a, st).

Definition bind {A B} (c : M A) (k : A -> M B) : M B :=
  fun st =>
    match c st with
    | (Ok a, st') => k a st'
    | (Throw e, st') => (Throw e, st')
    | (Exit code, st') => (Exit code, st')
    | (OutOfFuel, st') => (OutOfFuel, st')
    end.

Notation "x <- c ;; k" := (bind c (fun x => k))
  (at level 61, c at next level, right associativity) : js_scope.
Notation "c ;; k" := (bind c (fun _ => k))
  (at level 61, right associativity) : js_scope.
Local Open Scope js_scope.

Definition throw {A} (e : exn) : M A := fun st => (Throw e, st).

Definition lift {A} (r : exn + A) : M A :=
  match r with
  | inl e => throw e
  | inr a => ret a
  end.

Definition emit (ev : event) : M unit :=
  fun st => (Ok tt, (fst st, snd st ++ [ev])).

Definition console_error (line : jsstring) : M unit := emit (EStderr line).
Definition console_log (line : jsstring) : M unit := emit (EStdout line).

(** The write is taken to succeed. *)
Definition Bun_write (path : jsstring) (content : list OutputEntry) : M unit :=
  emit (EWrite path content).

Definition process_exit {A} (code : Z) : M A := fun st => (Exit code, st).

(** [const res = await fetch(url); const data = await res.json();] *)
Definition fetch_json (request : jsstring) : M Api.Response :=
  fun st =>
    let (r, w') := fetch request (fst st) in
    (match r with inl e => Throw e | inr data => Ok data end,
     (w', snd st ++ [EFetch request])).

Definition getChannelId (handle : jsstring) : M jsstring :=
  let request :=
    lit "https://www.googleapis.com/youtube/v3/channels?part=id&forHandle="
    ++ remove_first 64%N handle ++ lit "&key=" ++ template API_KEY in
  data <- fetch_json request ;;
  match Api.items data with
  | Some (item :: _) => ret (Api.id item)
  | _ => throw (Error (lit "Channel not found: " ++ handle))
  end.

Definition getUploadsPlaylistId (channelId : jsstring) : M jsstring :=
  let request :=
    lit "https://www.googleapis.com/youtube/v3/channels?part=contentDetails&id="
    ++ channelId ++ lit "&key=" ++ template API_KEY in
  data <- fetch_json request ;;
  items <- lift (read (Api.items data)) ;;
  item <- lift (read (hd_error items)) ;;
  contentDetails <- lift (read (Api.contentDetails item)) ;;
  relatedPlaylists <- lift (read (Api.relatedPlaylists contentDetails)) ;;
  ret (Api.uploads relatedPlaylists).

(** The request for one page of the playlist. *)
Definition playlistItemsRequest (playlistId : jsstring)
           (nextPageToken : option jsstring) : jsstring :=
  lit "https://www.googleapis.com/youtube/v3/playlistItems?part=contentDetails&playlistId="
  ++ playlistId ++ lit "&maxResults=50&key=" ++ template API_KEY
  ++ (if truthy nextPageToken
      then lit "&pageToken=" ++ template nextPageToken
      else []).

(** The [do ... while (nextPageToken)] loop; [fuel] bounds the number of
    pages asked for. *)
Fixpoint getAllVideoIds_loop (fuel : nat) (playlistId : jsstring)
         (videoIds : list jsstring) (nextPageToken : option jsstring)
  : M (list jsstring) :=
  match fuel with
  | O => fun st => (OutOfFuel, st)
  | S fuel' =>
      data <- fetch_json (playlistItemsRequest playlistId nextPageToken) ;;
      videoIds <- lift (pushVideoIds videoIds (itemsOrEmpty data)) ;;
      let nextPageToken := Api.nextPageToken data in
      console_error (lit "Fetched " ++ nat_toString (length videoIds)
                     ++ lit " video IDs...") ;;
      if truthy nextPageToken
      then getAllVideoIds_loop fuel' playlistId videoIds nextPageToken
      else ret videoIds
  end.

Definition getAllVideoIds (fuel : nat) (playlistId : jsstring)
  : M (list jsstring) :=
  getAllVideoIds_loop fuel playlistId [] None.

(** The request for the details of one batch. *)
Definition videosRequest (batch : list jsstring) : jsstring :=
  lit "https://www.googleapis.com/youtube/v3/videos?part=snippet,statistics,contentDetails&id="
  ++ join (lit ",") batch ++ lit "&key=" ++ template API_KEY.

(** The loop [for (let i = 0; i < videoIds.length; i += 50)], from the
    index [i] on. *)
Equations? getVideoDetails_loop (videoIds : list jsstring) (i : nat)
           (videos : list Video) : M (list Video)
  by wf (length videoIds - i) lt :=
  getVideoDetails_loop videoIds i videos with lt_dec i (length videoIds) := {
    | left _ =>
        let batch := slice i (i + 50) videoIds in
        data <- fetch_json (videosRequest batch) ;;
        videos' <- lift (pushVideos videos (itemsOrEmpty data)) ;;
        console_error (lit "Fetched details for "
                       ++ nat_toString (length videos') ++ lit "/"
                       ++ nat_toString (length videoIds) ++ lit " videos...") ;;
        getVideoDetails_loop videoIds (i + 50) videos'
    | right _ => ret videos }.
Proof. lia. Qed.

Definition getVideoDetails (videoIds : list jsstring) : M (list Video) :=
  getVideoDetails_loop videoIds 0 [].

(** [videos.forEach((video, index) => body)]. *)
Fixpoint forEach_from {A} (index : nat) (body : A -> nat -> M unit)
         (l : list A) : M unit :=
  match l with
  | [] => ret tt
  | x :: l' => body x index ;; forEach_from (S index) body l'
  end.

Definition forEach {A} (body : A -> nat -> M unit) (l : list A) : M unit :=
  forEach_from 0 body l.

(** The line feed of a template string. *)
Definition nl : jsstring := [10%N].

(** The guard on the key and the four fetching stages of [main]; the value
    is [videos] as [getVideoDetails] returns it. *)
Definition main_fetch (fuel : nat) : M (list Video) :=
  (if negb (truthy API_KEY) then
     console_error (lit "Error: YOUTUBE_API_KEY environment variable is required") ;;
     console_error (lit "") ;;
     console_error (lit "To get an API key:") ;;
     console_error (lit "1. Go to https://console.cloud.google.com/apis/credentials") ;;
     console_error (lit "2. Create a new project or select existing one") ;;
     console_error (lit "3. Enable 'YouTube Data API v3'") ;;
     console_error (lit "4. Create an API key") ;;
     console_error (lit "") ;;
     console_error (lit "Usage: YOUTUBE_API_KEY=your_key bun run fetch-youtube-videos.ts") ;;
     process_exit 1
   else ret tt) ;;
  console_error (lit "Fetching videos from " ++ CHANNEL_HANDLE ++ lit "..." ++ nl) ;;
  channelId <- getChannelId CHANNEL_HANDLE ;;
  console_error (lit "Channel ID: " ++ channelId) ;;
  uploadsPlaylistId <- getUploadsPlaylistId channelId ;;
  console_error (lit "Uploads Playlist ID: " ++ uploadsPlaylistId ++ nl) ;;
  videoIds <- getAllVideoIds fuel uploadsPlaylistId ;;
  console_error (nl ++ lit "Total videos found: "
                 ++ nat_toString (length videoIds) ++ nl) ;;
  getVideoDetails videoIds.

(** The table: the heading, the total, the two header lines and one row
    per video. *)
Definition main_table (videos : list Video) : M unit :=
  console_log (nl ++ lit "# All Videos from @aidotengineer sorted by popularity" ++ nl) ;;
  console_log (lit "Total: " ++ nat_toString (length videos) ++ lit " videos" ++ nl) ;;
  console_log (lit "| Rank | Views | Likes | Duration | Title | URL |") ;;
  console_log (lit "|------|-------|-------|----------|-------|-----|") ;;
  forEach (fun video index => console_log (tableRow video index)) videos.

Definition main (fuel : nat) : M unit :=
  videos <- main_fetch fuel ;;
  let videos := sortByViews videos in
  main_table videos ;;
  let jsonOutput := jsonOutput videos in
  Bun_write (lit "youtube-videos.json") jsonOutput ;;
  console_error (nl ++ nl ++ lit "JSON output saved to youtube-videos.json").

(** [main().catch(console.error)]: a rejection of [main] is handled by
    printing it, after which the process has nothing left to do. *)
Definition program (fuel : nat) (w : World) : outcome unit * State :=
  match main fuel (w, []) with
  | (Throw e, st) => emit (EStderrExn e) st
  | r => r
  end.

(** The requests and answers the network goes through from [w] to [w']. *)
Inductive answers : World -> list (jsstring * Api.Response) -> World -> Prop :=
| answers_nil w : answers w [] w
| answers_cons w request data w1 rest w2 :
    fetch request w = (inr data, w1) ->
    answers w1 rest w2 ->
    answers w ((request, data) :: rest) w2.

(** The requests the collector sends for a sequence of pages, each with
    the cursor of the page before, and the page that answers it. *)
Fixpoint pageRequests (playlistId : jsstring) (nextPageToken : option jsstring)
         (pages : list Api.Response) : list (jsstring * Api.Response) :=
  match pages with
  | [] => []
  | page :: rest =>
      (playlistItemsRequest playlistId nextPageToken, page)
        :: pageRequests playlistId (Api.nextPageToken page) rest
  end.

End Pipeline.

Arguments ret {World A} a.
Arguments throw {World A} e.
Arguments process_exit {World A} code.

(** The exit code of the process, once it has ended.  The code is 0 unless
    [process.exit] set another one; a rejection nobody handles would end
    the process with code 1. *)
Definition exitCode {A} (o : outcome A) : option Z :=
  match o with
  | Ok _ => Some 0%Z
  | Exit code => Some code
  | Throw _ => Some 1%Z
  | OutOfFuel => None
  end.

(** A page carries a continuation cursor when [nextPageToken] is truthy. *)
Definition hasCursor (page : Api.Response) : bool :=
  truthy (Api.nextPageToken page).

(** Exactly the last page of the sequence has no cursor. *)
Fixpoint lastPageOnly (pages : list Api.Response) : bool :=
  match pages with
  | [] => false
  | [page] => negb (hasCursor page)
  | page :: rest => hasCursor page && lastPageOnly rest
  end.

(** The video identifiers of a page; every item of a well-formed page has
    its [contentDetails]. *)
Definition pageIds (page : Api.Response) : list jsstring :=
  flat_map (fun item =>
              match Api.contentDetails item with
              | Some cd => [Api.videoId cd]
              | None => []
              end) (itemsOrEmpty page).

Definition pageOk (page : Api.Response) : Prop :=
  Forall (fun item => Api.contentDetails item <> None) (itemsOrEmpty page).

(** A scripted network: the answers are served in order, whatever the
    request; a request after the last answer is rejected. *)
Definition Script : Type := list (exn + Api.Response).

Definition scripted (request : jsstring) (w : Script)
  : (exn + Api.Response) * Script :=
  match w with
  | r :: w' => (r, w')
  | [] => (inl (Rejected (lit "fetch failed")), [])
  end.

(** ** formatDuration: the matcher and the clock string *)

Local Open Scope N_scope.

Lemma match_here_Some s m :
  match_here s = Some m -> exists r, s = lit "PT" ++ r.
Proof.
  destruct s as [|p [|t r]]; simpl; try discriminate.
  destruct (char_eqb p 80) eqn:Hp; simpl; try discriminate.
  destruct (char_eqb t 84) eqn:Ht; simpl; try discriminate.
  intros _. apply N.eqb_eq in Hp, Ht. subst. now exists r.
Qed.

Lemma match_here_PT r : exists m, match_here (lit "PT" ++ r) = Some m.
Proof.
  simpl.
  destruct (unit_group 72 r) as [h r1].
  destruct (unit_group 77 r1) as [m r2].
  destruct (unit_group 83 r2) as [sec r3].
  eauto.
Qed.

Lemma duration_match_Some s m :
  duration_match s = Some m -> contains (lit "PT") s.
Proof.
  induction s as [|c s IH].
  - simpl. discriminate.
  - cbn [duration_match].
    destruct (match_here (c :: s)) as [m'|] eqn:Hh.
    + intros _. apply match_here_Some in Hh as [r ->]. now exists [], r.
    + intros H. destruct (IH H) as (pre & post & ->).
      now exists (c :: pre), post.
Qed.

Lemma duration_match_contains s :
  contains (lit "PT") s -> exists m, duration_match s = Some m.
Proof.
  intros (pre & post & ->).
  induction pre as [|c pre IH].
  - destruct (match_here_PT post) as [m Hm].
    exists m. change ([] ++ lit "PT" ++ post) with (lit "PT" ++ post).
    destruct post; cbn [duration_match app lit]; simpl in Hm |- *;
      rewrite Hm; reflexivity.
  - destruct IH as [m Hm].
    cbn [app duration_match].
    destruct (match_here (c :: pre ++ lit "PT" ++ post)) as [m'|]; eauto.
Qed.

Lemma duration_match_None_iff s :
  duration_match s = None <-> ~ contains (lit "PT") s.
Proof.
  split.
  - intros Hn Hc. apply duration_match_contains in Hc as [m Hm]. congruence.
  - intros Hc. destruct (duration_match s) as [m|] eqn:Hm; [|reflexivity].
    exfalso. eauto using duration_match_Some.
Qed.

Lemma matches_pattern_contains s :
  matches_pattern s <-> contains (lit "PT") s.
Proof.
  split.
  - intros (pre & w & post & (h & m & sec & _ & _ & _ & ->) & ->).
    exists pre, (h ++ m ++ sec ++ post).
    now rewrite <- !app_assoc.
  - intros (pre & post & ->).
    exists pre, (lit "PT"), post. split; [|reflexivity].
    exists [], [], []. repeat split; constructor.
Qed.

(** The digits a group captures. *)
Lemma span_digits_spec s ds rest :
  span_digits s = (ds, rest) ->
  s = ds ++ rest /\ Forall (fun c => is_digit c = true) ds.
Proof.
  revert ds rest. induction s as [|c s IH]; simpl; intros ds rest H.
  - inversion H. auto.
  - destruct (is_digit c) eqn:Hc.
    + destruct (span_digits s) as [ds' rest'].
      inversion H; subst. destruct (IH _ _ eq_refl) as [-> Hd].
      auto.
    + inversion H. auto.
Qed.

Lemma unit_group_digits u s g rest :
  unit_group u s = (Some g, rest) ->
  g <> [] /\ Forall (fun c => is_digit c = true) g /\ s = g ++ u :: rest.
Proof.
  unfold unit_group.
  destruct (span_digits s) as [ds r] eqn:Hs.
  apply span_digits_spec in Hs as [-> Hd].
  destruct ds as [|d ds]; [discriminate|].
  destruct r as [|c r]; [discriminate|].
  destruct (char_eqb c u) eqn:Hc; [|discriminate].
  intros H. inversion H; subst. apply N.eqb_eq in Hc. subst.
  repeat split; auto. discriminate.
Qed.

(** A character of a formatted clock string: a digit or the colon. *)
Definition clock_char (c : char16) : bool := is_digit c || char_eqb c 58.

Lemma digits_clock g :
  Forall (fun c => is_digit c = true) g ->
  Forall (fun c => clock_char c = true) g.
Proof.
  apply Forall_impl. intros c Hc. unfold clock_char. now rewrite Hc.
Qed.

Lemma In_firstn {A} (x : A) n l : In x (firstn n l) -> In x l.
Proof.
  intros H. rewrite <- (firstn_skipn n l). apply in_or_app. now left.
Qed.

Lemma padStart_zero_clock g n :
  Forall (fun c => clock_char c = true) g ->
  Forall (fun c => clock_char c = true) (padStart g n (lit "0")).
Proof.
  intros Hg. unfold padStart. apply Forall_app. split; [|assumption].
  apply Forall_forall. intros c Hc. apply In_firstn in Hc.
  apply in_concat in Hc as (p & Hp & Hc).
  apply repeat_spec in Hp. subst p.
  destruct Hc as [<-|[]]. reflexivity.
Qed.

Lemma group_clock (g : option jsstring) :
  (forall ds, g = Some ds -> Forall (fun c => is_digit c = true) ds) ->
  truthy g = true ->
  Forall (fun c => clock_char c = true) (template g).
Proof.
  intros H Ht. destruct g as [ds|]; [|discriminate].
  simpl. apply digits_clock. auto.
Qed.

Lemma match_here_groups s m :
  match_here s = Some m ->
  forall g ds, In g [group1 m; group2 m; group3 m] -> g = Some ds ->
  Forall (fun c => is_digit c = true) ds.
Proof.
  destruct s as [|p [|t r]]; simpl; try discriminate.
  destruct (char_eqb p 80 && char_eqb t 84); try discriminate.
  destruct (unit_group 72 r) as [h r1] eqn:H1.
  destruct (unit_group 77 r1) as [mi r2] eqn:H2.
  destruct (unit_group 83 r2) as [sec r3] eqn:H3.
  intros Hm. inversion Hm; subst m; clear Hm. simpl.
  intros g ds [<-|[<-|[<-|[]]]] ->.
  - now apply unit_group_digits in H1.
  - now apply unit_group_digits in H2.
  - now apply unit_group_digits in H3.
Qed.

Lemma duration_match_groups s m :
  duration_match s = Some m ->
  forall g ds, In g [group1 m; group2 m; group3 m] -> g = Some ds ->
  Forall (fun c => is_digit c = true) ds.
Proof.
  induction s as [|c s IH]; cbn [duration_match].
  - simpl. discriminate.
  - destruct (match_here (c :: s)) as [m'|] eqn:Hh.
    + intros H. inversion H; subst. eauto using match_here_groups.
    + assumption.
Qed.

(** A matched duration is rendered with digits and colons only. *)
Lemma formatDuration_clock s m :
  duration_match s = Some m ->
  Forall (fun c => clock_char c = true) (formatDuration s).
Proof.
  intros Hm. unfold formatDuration. rewrite Hm.
  pose proof (duration_match_groups _ Hm) as Hg.
  assert (Hcolon : Forall (fun c => clock_char c = true) (lit ":"))
    by (repeat constructor).
  cbv zeta.
  apply Forall_app; split; [|apply Forall_app; split; [|apply Forall_app; split]];
    auto.
  - destruct (truthy (group1 m)) eqn:Ht; [|constructor].
    apply Forall_app; split; auto.
    apply group_clock; auto. intros ds E. apply (Hg _ ds (or_introl eq_refl) E).
  - destruct (truthy (group2 m)) eqn:Ht; [|repeat constructor].
    apply padStart_zero_clock, group_clock; auto.
    intros ds E. apply (Hg _ ds (or_intror (or_introl eq_refl)) E).
  - destruct (truthy (group3 m)) eqn:Ht; [|repeat constructor].
    apply padStart_zero_clock, group_clock; auto.
    intros ds E.
    apply (Hg _ ds (or_intror (or_intror (or_introl eq_refl))) E).
Qed.

Lemma clock_no_match s :
  Forall (fun c => clock_char c = true) s -> duration_match s = None.
Proof.
  intros H. apply duration_match_None_iff.
  intros (pre & post & ->).
  apply Forall_app in H as [_ H]. inversion H; subst. discriminate.
Qed.

(** What a group yields when its digits and unit letter stand at the head
    of the input. *)
Lemma span_digits_app ds c rest :
  Forall (fun c => is_digit c = true) ds -> is_digit c = false ->
  span_digits (ds ++ c :: rest) = (ds, c :: rest).
Proof.
  intros Hd Hc. induction Hd as [|d ds Hd _ IH]; simpl.
  - now rewrite Hc.
  - now rewrite Hd, IH.
Qed.

Lemma unit_group_present u ds rest :
  ds <> [] -> Forall (fun c => is_digit c = true) ds -> is_digit u = false ->
  unit_group u (ds ++ u :: rest) = (Some ds, rest).
Proof.
  intros Hne Hd Hu. unfold unit_group.
  rewrite span_digits_app by assumption.
  destruct ds; [congruence|].
  unfold char_eqb. now rewrite N.eqb_refl.
Qed.

(** Hours, minutes and seconds all present: the clock string is
    [H:MM:SS], the minutes and the seconds padded to two digits. *)
Lemma formatDuration_hms h m s :
  h <> [] -> m <> [] -> s <> [] ->
  Forall (fun c => is_digit c = true) h ->
  Forall (fun c => is_digit c = true) m ->
  Forall (fun c => is_digit c = true) s ->
  formatDuration (lit "PT" ++ h ++ lit "H" ++ m ++ lit "M" ++ s ++ lit "S")
  = h ++ lit ":" ++ padStart m 2 (lit "0") ++ lit ":" ++ padStart s 2 (lit "0").
Proof.
  intros Hh Hm Hs Dh Dm Ds.
  unfold formatDuration.
  change (lit "PT" ++ h ++ lit "H" ++ m ++ lit "M" ++ s ++ lit "S")
    with (80 :: 84 :: h ++ 72 :: m ++ 77 :: s ++ [83]).
  cbn [duration_match match_here char_eqb N.eqb Pos.eqb andb].
  rewrite !unit_group_present by (assumption || reflexivity).
  destruct h; [congruence|]. destruct m; [congruence|]. destruct s; [congruence|].
  cbn [group1 group2 group3 truthy template app].
  now rewrite <- !app_assoc.
Qed.

(** C6: formatting a formatted duration returns it unchanged (for every
    input string, matching or not), and the three vectors of the
    specification evaluate as stated. *)
Theorem formatDuration_idempotent :
  (forall s, formatDuration (formatDuration s) = formatDuration s) /\
  formatDuration (lit "PT1H2M10S") = lit "1:02:10" /\
  formatDuration (lit "PT45S") = lit "0:45" /\
  formatDuration (lit "PT5M") = lit "5:00".
Proof.
  split; [|repeat split; reflexivity].
  intros s. destruct (duration_match s) as [m|] eqn:Hm.
  - pose proof (formatDuration_clock _ Hm) as Hc.
    apply clock_no_match in Hc.
    unfold formatDuration at 1. now rewrite Hc.
  - unfold formatDuration. now rewrite Hm, Hm.
Qed.

(** C7: an input that does not match the duration pattern (no substring
    of it is [PT] followed by the optional hour, minute and second groups)
    is returned as it is. *)
Theorem formatDuration_passthrough s :
  ~ matches_pattern s -> formatDuration s = s.
Proof.
  intros Hn. unfold formatDuration.
  destruct (duration_match s) as [m|] eqn:Hm; [|reflexivity].
  exfalso. apply Hn, matches_pattern_contains.
  eauto using duration_match_Some.
Qed.

Lemma formatDuration_passthrough_witness :
  ~ matches_pattern (lit "P1W") /\ formatDuration (lit "P1W") = lit "P1W".
Proof.
  assert (H : ~ matches_pattern (lit "P1W")).
  { rewrite matches_pattern_contains. apply duration_match_None_iff.
    reflexivity. }
  split; [exact H | exact (formatDuration_passthrough H)].
Defined.

(** C10: the match is a search, and every group is optional: an input
    matches exactly when [PT] occurs somewhere in it.  So [PT] alone is
    formatted as [0:00], a [PT] inside other text is formatted too, and a
    string without [PT] (a duration with a day part, say) comes back
    unchanged. *)
Theorem formatDuration_unanchored :
  (forall s, duration_match s <> None <-> contains (lit "PT") s) /\
  formatDuration (lit "PT") = lit "0:00" /\
  formatDuration (lit "xxPT7Mzz") = lit "7:00" /\
  (forall s, ~ contains (lit "PT") s -> formatDuration s = s) /\
  formatDuration (lit "P1DT2H3M4S") = lit "P1DT2H3M4S".
Proof.
  split; [|split; [reflexivity|split; [reflexivity|split; [|reflexivity]]]].
  - intros s. split.
    + destruct (duration_match s) as [m|] eqn:Hm; [|congruence].
      intros _. eauto using duration_match_Some.
    + intros Hc. apply duration_match_contains in Hc as [m ->]. discriminate.
  - intros s Hn. apply duration_match_None_iff in Hn.
    unfold formatDuration. now rewrite Hn.
Qed.

(** C1: with the hours present and the minutes absent the minutes field is
    the one character [0]: the result is [H:0:SS], not [H:MM:SS]. *)
Theorem formatDuration_hours_without_minutes :
  formatDuration (lit "PT1H5S") = lit "1:0:05" /\
  formatDuration (lit "PT2H") = lit "2:0:00" /\
  forall h s,
    h <> [] -> s <> [] ->
    Forall (fun c => is_digit c = true) h ->
    Forall (fun c => is_digit c = true) s ->
    formatDuration (lit "PT" ++ h ++ lit "H" ++ s ++ lit "S")
    = h ++ lit ":" ++ lit "0" ++ lit ":" ++ padStart s 2 (lit "0").
Proof.
  split; [reflexivity|split; [reflexivity|]].
  intros h s Hh Hs Dh Ds.
  unfold formatDuration.
  change (lit "PT" ++ h ++ lit "H" ++ s ++ lit "S")
    with (80 :: 84 :: h ++ 72 :: s ++ [83]).
  cbn [duration_match match_here char_eqb N.eqb Pos.eqb andb].
  rewrite unit_group_present by (assumption || reflexivity).
  assert (Hm : unit_group 77 (s ++ [83]) = (None, s ++ [83])).
  { unfold unit_group. rewrite span_digits_app by (assumption || reflexivity).
    now destruct s. }
  rewrite Hm. rewrite unit_group_present by (assumption || reflexivity).
  destruct h; [congruence|]. destruct s; [congruence|].
  cbn [group1 group2 group3 truthy template app].
  now rewrite <- !app_assoc.
Qed.

Local Open Scope nat_scope.

Arguments lit : simpl never.

(** ** The batches of [getVideoDetails] *)

(** [ceil (n / d)]. *)
Definition div_ceil (n d : nat) : nat := (n + d - 1) / d.

(** The consecutive batches of at most 50 identifiers: batch [k] is
    [videoIds.slice(50 * k, 50 * k + 50)]. *)
Definition batchesFrom (k n : nat) (videoIds : list jsstring)
  : list (list jsstring) :=
  map (fun k => slice (50 * k) (50 * k + 50) videoIds) (seq k n).

Definition batches (videoIds : list jsstring) : list (list jsstring) :=
  batchesFrom 0 (div_ceil (length videoIds) 50) videoIds.

(** The items the details endpoint returns for a batch: one per identifier
    it knows, in the order asked; an identifier it does not know (a deleted
    or private video) yields no item. *)
Definition matched (detail : jsstring -> option Api.Resource)
           (batch : list jsstring) : list Api.Resource :=
  flat_map (fun videoId =>
              match detail videoId with
              | Some item => [item]
              | None => []
              end) batch.

Definition detailsResponse (detail : jsstring -> option Api.Resource)
           (batch : list jsstring) : Api.Response :=
  {| Api.items := Some (matched detail batch); Api.nextPageToken := None |}.

(** An item with the three objects [getVideoDetails] reads through. *)
Definition complete (item : Api.Resource) : Prop :=
  Api.snippet item <> None /\ Api.statistics item <> None /\
  Api.contentDetails item <> None.

(** The identifiers of a list for which the endpoint has no item. *)
Definition unmatched (detail : jsstring -> option Api.Resource)
           (videoIds : list jsstring) : list jsstring :=
  filter (fun videoId =>
            match detail videoId with Some _ => false | None => true end)
         videoIds.

Lemma slice_length {A} i j (l : list A) :
  length (slice i j l) = Nat.min (j - i) (length l - i).
Proof. unfold slice. now rewrite length_firstn, length_skipn. Qed.

Lemma batchesFrom_S k n ids :
  batchesFrom k (S n) ids
  = slice (50 * k) (50 * k + 50) ids :: batchesFrom (S k) n ids.
Proof. reflexivity. Qed.

Lemma batchesFrom_length k n ids : length (batchesFrom k n ids) = n.
Proof. unfold batchesFrom. now rewrite length_map, length_seq. Qed.

Lemma div_ceil_50 n :
  n <= 50 * div_ceil n 50 /\ 50 * div_ceil n 50 < n + 50.
Proof.
  unfold div_ceil.
  pose proof (Nat.div_mod_eq (n + 50 - 1) 50) as E.
  pose proof (Nat.mod_upper_bound (n + 50 - 1) 50) as B.
  lia.
Qed.

Lemma batchesFrom_concat n : forall k ids,
  k + n = div_ceil (length ids) 50 ->
  concat (batchesFrom k n ids) = skipn (50 * k) ids.
Proof.
  induction n as [|n IH]; intros k ids H;
    pose proof (div_ceil_50 (length ids)) as Hc.
  - simpl. symmetry. apply skipn_all2. lia.
  - rewrite batchesFrom_S. cbn [concat]. rewrite IH by lia.
    unfold slice.
    replace (50 * k + 50 - 50 * k) with 50 by lia.
    replace (50 * S k) with (50 + 50 * k) by lia.
    rewrite <- skipn_skipn. apply firstn_skipn.
Qed.

Lemma batches_concat ids : concat (batches ids) = ids.
Proof. unfold batches. now rewrite batchesFrom_concat. Qed.

Lemma batches_length ids : length (batches ids) = div_ceil (length ids) 50.
Proof. apply batchesFrom_length. Qed.

(** Every batch but the last has 50 identifiers; the last has the rest,
    between 1 and 50. *)
Lemma batches_sizes ids k b :
  nth_error (batches ids) k = Some b ->
  length b = Nat.min 50 (length ids - 50 * k) /\ 1 <= length b <= 50.
Proof.
  unfold batches, batchesFrom. intros H.
  assert (Hk : k < div_ceil (length ids) 50).
  { assert (Hn : nth_error
                   (map (fun k => slice (50 * k) (50 * k + 50) ids)
                        (seq 0 (div_ceil (length ids) 50))) k <> None)
      by congruence.
    apply nth_error_Some in Hn.
    now rewrite length_map, length_seq in Hn. }
  rewrite nth_error_map, nth_error_seq in H.
  destruct (k <? div_ceil (length ids) 50) eqn:E;
    [|apply Nat.ltb_ge in E; lia].
  simpl in H. inversion H; subst b; clear H.
  rewrite slice_length. pose proof (div_ceil_50 (length ids)). lia.
Qed.

Lemma matched_app detail a b :
  matched detail (a ++ b) = matched detail a ++ matched detail b.
Proof. apply flat_map_app. Qed.

Lemma matched_length detail ids :
  length (matched detail ids) + length (unmatched detail ids) = length ids.
Proof.
  induction ids as [|x ids IH]; simpl; [reflexivity|].
  destruct (detail x); simpl; lia.
Qed.

Lemma fetches_app tr1 tr2 : fetches (tr1 ++ tr2) = fetches tr1 ++ fetches tr2.
Proof.
  induction tr1 as [|ev tr1 IH]; [reflexivity|].
  destruct ev; simpl; now rewrite IH.
Qed.

Lemma videoOfItem_complete item :
  complete item -> exists v, videoOfItem item = inr v.
Proof.
  intros (Hs & Ht & Hc). unfold videoOfItem.
  destruct (Api.snippet item); [|congruence].
  destruct (Api.statistics item); [|congruence].
  destruct (Api.contentDetails item); [|congruence].
  simpl. eauto.
Qed.

Lemma pushVideos_complete items :
  Forall complete items ->
  forall videos, exists vs,
    pushVideos videos items = inr (videos ++ vs) /\
    Forall2 (fun item v => videoOfItem item = inr v) items vs.
Proof.
  induction 1 as [|item items Hc _ IH]; intros videos.
  - exists []. simpl. rewrite app_nil_r. auto.
  - destruct (videoOfItem_complete Hc) as [v Hv].
    destruct (IH (videos ++ [v])) as (vs & Hp & Hf).
    exists (v :: vs). simpl. rewrite Hv, Hp, <- app_assoc. auto.
Qed.

Lemma matched_complete detail ids :
  (forall videoId item, detail videoId = Some item -> complete item) ->
  Forall complete (matched detail ids).
Proof.
  intros Hd. induction ids as [|x ids IH]; simpl; [constructor|].
  destruct (detail x) eqn:E; simpl; eauto.
Qed.

Section PipelineFacts.

Context {World : Type}.
Variable fetch : jsstring -> World -> (exn + Api.Response) * World.
Variable API_KEY : option jsstring.

Lemma bind_Ok A B (c : M World A) (k : A -> M World B) st a st' :
  c st = (Ok a, st') -> bind c k st = k a st'.
Proof. unfold bind. now intros ->. Qed.

Lemma fetch_json_Ok request w tr data w' :
  fetch request w = (inr data, w') ->
  fetch_json fetch request (w, tr) = (Ok data, (w', tr ++ [EFetch request])).
Proof. unfold fetch_json. simpl. now intros ->. Qed.

Lemma getVideoDetails_loop_done ids i videos :
  length ids <= i ->
  getVideoDetails_loop fetch API_KEY ids i videos = ret videos.
Proof.
  intros H. simp getVideoDetails_loop.
  destruct (lt_dec i (length ids)); [lia|reflexivity].
Qed.

Lemma getVideoDetails_loop_step ids i videos :
  i < length ids ->
  getVideoDetails_loop fetch API_KEY ids i videos
  = bind (fetch_json fetch (videosRequest API_KEY (slice i (i + 50) ids)))
      (fun data =>
         bind (lift (pushVideos videos (itemsOrEmpty data)))
           (fun videos' =>
              bind (console_error
                      (lit "Fetched details for "
                       ++ nat_toString (length videos') ++ lit "/"
                       ++ nat_toString (length ids) ++ lit " videos..."))
                (fun _ =>
                   getVideoDetails_loop fetch API_KEY ids (i + 50) videos'))).
Proof.
  intros H. simp getVideoDetails_loop.
  destruct (lt_dec i (length ids)); [reflexivity|lia].
Qed.

(** The request of a batch and the answer of an endpoint that knows the
    videos [detail] describes. *)
Definition batchExchange (detail : jsstring -> option Api.Resource)
           (batch : list jsstring) : jsstring * Api.Response :=
  (videosRequest API_KEY batch, detailsResponse detail batch).

Lemma getVideoDetails_loop_spec detail ids :
  (forall videoId item, detail videoId = Some item -> complete item) ->
  forall n k w w' tr videos,
    k + n = div_ceil (length ids) 50 ->
    answers fetch w (map (batchExchange detail) (batchesFrom k n ids)) w' ->
    exists tr' vs,
      getVideoDetails_loop fetch API_KEY ids (50 * k) videos (w, tr)
      = (Ok (videos ++ vs), (w', tr ++ tr')) /\
      Forall2 (fun item v => videoOfItem item = inr v)
              (matched detail (skipn (50 * k) ids)) vs /\
      fetches tr' = map (videosRequest API_KEY) (batchesFrom k n ids).
Proof.
  intros Hd. induction n as [|n IH]; intros k w w' tr videos Hk Ha;
    pose proof (div_ceil_50 (length ids)) as Hc.
  - inversion Ha; subst.
    rewrite getVideoDetails_loop_done by lia.
    exists [], []. rewrite !app_nil_r.
    rewrite skipn_all2 by lia. repeat split. constructor.
  - rewrite batchesFrom_S in Ha |- *. cbn [map] in Ha |- *.
    rewrite getVideoDetails_loop_step by lia.
    unfold batchExchange at 1 in Ha.
    set (batch := slice (50 * k) (50 * k + 50) ids) in *.
    set (later := batchesFrom (S k) n ids) in *.
    inversion Ha as [|? request data w1 rest ? Hf Hrest]; subst.
    erewrite bind_Ok by (apply fetch_json_Ok; exact Hf).
    destruct (@pushVideos_complete (matched detail batch)
                (matched_complete _ _ Hd) videos) as (vs1 & Hp & Hf1).
    cbn [itemsOrEmpty detailsResponse Api.items].
    rewrite Hp. cbn [lift].
    unfold bind at 1, ret at 1.
    unfold bind at 1, console_error at 1, emit at 1. cbn [fst snd].
    replace (50 * k + 50) with (50 * S k) by lia.
    destruct (IH (S k) w1 w'
                ((tr ++ [EFetch (videosRequest API_KEY batch)])
                   ++ [EStderr
                         (lit "Fetched details for "
                          ++ nat_toString (length (videos ++ vs1)) ++ lit "/"
                          ++ nat_toString (length ids) ++ lit " videos...")])
                (videos ++ vs1)) as (tr' & vs2 & Hrun & Hf2 & Hfe);
      [lia|exact Hrest|].
    rewrite Hrun.
    eexists (_ :: _ :: tr'), (vs1 ++ vs2).
    split; [|split].
    + rewrite <- !app_assoc. reflexivity.
    + assert (E : skipn (50 * k) ids
                  = slice (50 * k) (50 * k + 50) ids ++ skipn (50 * S k) ids).
      { unfold slice.
        replace (50 * k + 50 - 50 * k) with 50 by lia.
        replace (50 * S k) with (50 + 50 * k) by lia.
        rewrite <- skipn_skipn. symmetry. apply firstn_skipn. }
      rewrite E, matched_app. now apply Forall2_app.
    + cbn [fetches]. now rewrite Hfe.
Qed.

(** C5: the identifiers are asked for in [ceil (N / 50)] consecutive
    batches of at most 50, one request per batch (three batches of 50, 50
    and 20 for 120 identifiers).  When the endpoint answers each batch
    with the items of the identifiers it knows, the result holds one
    [Video] per known identifier, in order; an identifier without an item
    is left out without an error and without a placeholder (119 records
    for 120 identifiers of which one is unknown). *)
Theorem getVideoDetails_batches detail ids w w' tr :
  (forall videoId item, detail videoId = Some item -> complete item) ->
  answers fetch w (map (batchExchange detail) (batches ids)) w' ->
  exists videos tr',
    getVideoDetails fetch API_KEY ids (w, tr) = (Ok videos, (w', tr ++ tr')) /\
    fetches tr' = map (videosRequest API_KEY) (batches ids) /\
    length (batches ids) = div_ceil (length ids) 50 /\
    concat (batches ids) = ids /\
    (forall k b, nth_error (batches ids) k = Some b ->
                 length b = Nat.min 50 (length ids - 50 * k) /\
                 1 <= length b <= 50) /\
    (length ids = 120 -> map (@length jsstring) (batches ids) = [50; 50; 20]) /\
    Forall2 (fun item v => videoOfItem item = inr v) (matched detail ids) videos /\
    length videos + length (unmatched detail ids) = length ids /\
    (length ids = 120 -> length (unmatched detail ids) = 1 ->
     length videos = 119).
Proof.
  intros Hd Ha.
  destruct (@getVideoDetails_loop_spec detail ids Hd
              (div_ceil (length ids) 50) 0 w w' tr [] eq_refl Ha)
    as (tr' & vs & Hrun & Hf & Hfe).
  change (50 * 0) with 0 in Hrun, Hf. rewrite skipn_O in Hf.
  assert (Hlen : length vs + length (unmatched detail ids) = length ids).
  { rewrite <- (Forall2_length Hf). apply matched_length. }
  exists vs, tr'. repeat split.
  - exact Hrun.
  - exact Hfe.
  - apply batches_length.
  - apply batches_concat.
  - eapply batches_sizes; eassumption.
  - eapply batches_sizes; eassumption.
  - eapply batches_sizes; eassumption.
  - intros H120. unfold batches, batchesFrom. rewrite H120.
    change (div_ceil 120 50) with 3. cbn [seq map].
    rewrite !slice_length, H120. reflexivity.
  - exact Hf.
  - exact Hlen.
  - lia.
Qed.

(** *** Pagination *)

Lemma pushVideoIds_ok items :
  Forall (fun item => Api.contentDetails item <> None) items ->
  forall videoIds,
    pushVideoIds videoIds items
    = inr (videoIds
           ++ flat_map (fun item =>
                          match Api.contentDetails item with
                          | Some cd => [Api.videoId cd]
                          | None => []
                          end) items).
Proof.
  induction 1 as [|item items Hc _ IH]; intros videoIds; simpl.
  - now rewrite app_nil_r.
  - destruct (Api.contentDetails item) as [cd|]; [|congruence].
    simpl. now rewrite IH, <- app_assoc.
Qed.

(** One turn of the loop on a well-formed page. *)
Lemma getAllVideoIds_loop_step fuel playlistId videoIds token page w w1 tr :
  fetch (playlistItemsRequest API_KEY playlistId token) w = (inr page, w1) ->
  pageOk page ->
  getAllVideoIds_loop fetch API_KEY (S fuel) playlistId videoIds token (w, tr)
  = let videoIds' := videoIds ++ pageIds page in
    let st :=
      (w1, (tr ++ [EFetch (playlistItemsRequest API_KEY playlistId token)])
             ++ [EStderr (lit "Fetched "
                          ++ nat_toString (length videoIds')
                          ++ lit " video IDs...")]) in
    if hasCursor page
    then getAllVideoIds_loop fetch API_KEY fuel playlistId videoIds'
           (Api.nextPageToken page) st
    else (Ok videoIds', st).
Proof.
  intros Hf Hp. cbn [getAllVideoIds_loop].
  erewrite bind_Ok by (apply fetch_json_Ok; exact Hf).
  rewrite (pushVideoIds_ok Hp). cbn [lift].
  unfold bind at 1, ret at 1.
  unfold bind at 1, console_error at 1, emit at 1. cbn [fst snd].
  unfold hasCursor, pageIds.
  now destruct (truthy (Api.nextPageToken page)).
Qed.

Lemma getAllVideoIds_loop_pages playlistId pages :
  lastPageOnly pages = true ->
  Forall pageOk pages ->
  forall w w' tr videoIds token,
    answers fetch w (pageRequests API_KEY playlistId token pages) w' ->
    exists tr',
      fetches tr' = map fst (pageRequests API_KEY playlistId token pages) /\
      forall fuel,
        length pages <= fuel ->
        getAllVideoIds_loop fetch API_KEY fuel playlistId videoIds token (w, tr)
        = (Ok (videoIds ++ concat (map pageIds pages)), (w', tr ++ tr')).
Proof.
  induction pages as [|page rest IH]; intros Hl Hok w w' tr videoIds token Ha.
  - discriminate.
  - inversion Hok as [|? ? Hp Hrest]; subst.
    cbn [pageRequests] in Ha.
    inversion Ha as [|? request data w1 later ? Hf Hlater]; subst.
    destruct rest as [|page' rest'].
    + cbn [lastPageOnly] in Hl. apply negb_true_iff in Hl.
      inversion Hlater; subst.
      eexists [_; _]. split; revgoals.
      * intros [|fuel] Hfuel; [simpl in Hfuel; lia|].
        rewrite (getAllVideoIds_loop_step fuel videoIds tr Hf Hp). cbv zeta.
        rewrite Hl. cbn [map concat].
        now rewrite app_nil_r, <- app_assoc.
      * reflexivity.
    + change (lastPageOnly (page :: page' :: rest'))
        with (hasCursor page && lastPageOnly (page' :: rest')) in Hl.
      apply andb_true_iff in Hl as [Hc Hl].
      edestruct (IH Hl Hrest) as (tr' & Hfe & Hrun); [exact Hlater|].
      eexists (_ :: _ :: tr'). split; revgoals.
      * intros [|fuel] Hfuel; [simpl in Hfuel; lia|].
        rewrite (getAllVideoIds_loop_step fuel videoIds tr Hf Hp). cbv zeta.
        rewrite Hc, Hrun by (simpl in Hfuel |- *; lia).
        cbn [map concat]. now rewrite <- !app_assoc.
      * cbn [fetches pageRequests map fst]. now rewrite Hfe.
Qed.

Lemma getAllVideoIds_loop_early playlistId pages :
  lastPageOnly pages = true ->
  Forall pageOk pages ->
  forall fuel w w' tr videoIds token,
    answers fetch w (pageRequests API_KEY playlistId token pages) w' ->
    fuel < length pages ->
    fst (getAllVideoIds_loop fetch API_KEY fuel playlistId videoIds token (w, tr))
    = OutOfFuel.
Proof.
  induction pages as [|page rest IH]; intros Hl Hok fuel w w' tr videoIds token Ha Hfuel.
  - discriminate.
  - destruct fuel as [|fuel]; [reflexivity|].
    inversion Hok as [|? ? Hp Hrest]; subst.
    cbn [pageRequests] in Ha.
    inversion Ha as [|? request data w1 later ? Hf Hlater]; subst.
    rewrite (getAllVideoIds_loop_step fuel videoIds tr Hf Hp). cbv zeta.
    destruct rest as [|page' rest']; [simpl in Hfuel; lia|].
    change (lastPageOnly (page :: page' :: rest'))
      with (hasCursor page && lastPageOnly (page' :: rest')) in Hl.
    apply andb_true_iff in Hl as [Hc Hl]. rewrite Hc.
    eapply IH; eauto. simpl in Hfuel |- *. lia.
Qed.

(** C3: when the playlist is served as a finite sequence of pages of
    which exactly the last has no continuation cursor, the collector
    returns, after one request per page, the identifiers of all pages in
    page order and in the order within each page, no more and no fewer.
    It returns as soon as the loop may run once per page, and not
    before: with fewer turns than pages it is still asking. *)
Theorem getAllVideoIds_pages playlistId pages w w' tr :
  lastPageOnly pages = true ->
  Forall pageOk pages ->
  answers fetch w (pageRequests API_KEY playlistId None pages) w' ->
  exists tr',
    (forall fuel, length pages <= fuel ->
       getAllVideoIds fetch API_KEY fuel playlistId (w, tr)
       = (Ok (concat (map pageIds pages)), (w', tr ++ tr'))) /\
    fetches tr' = map fst (pageRequests API_KEY playlistId None pages) /\
    length (fetches tr') = length pages /\
    (forall fuel, fuel < length pages ->
       fst (getAllVideoIds fetch API_KEY fuel playlistId (w, tr)) = OutOfFuel).
Proof.
  intros Hl Hok Ha.
  destruct (@getAllVideoIds_loop_pages playlistId pages Hl Hok
              w w' tr [] None Ha) as (tr' & Hfe & Hrun).
  exists tr'. split; [|split; [exact Hfe|split]].
  - intros fuel Hfuel. unfold getAllVideoIds. now rewrite Hrun.
  - rewrite Hfe, length_map. clear. generalize (@None jsstring).
    induction pages; intros; simpl; auto.
  - intros fuel Hfuel. unfold getAllVideoIds.
    eapply getAllVideoIds_loop_early; eauto.
Qed.

(** *** What a run shows *)

(** The files written in a trace. *)
Definition writes (tr : list event) : list event := filter is_write tr.

(** A computation that adds no event of the kind [P] to the trace, however
    it ends. *)
Definition silent (P : event -> bool) {A} (c : M World A) : Prop :=
  forall st o st', c st = (o, st') -> filter P (snd st') = filter P (snd st).

Section Silent.

(** A kind of event that neither a request nor a diagnostic line is. *)
Variable P : event -> bool.
Hypothesis P_fetch : forall request, P (EFetch request) = false.
Hypothesis P_stderr : forall line, P (EStderr line) = false.

Lemma silent_ret A (a : A) : silent P (ret a).
Proof. intros st o st' H. now inversion H. Qed.

Lemma silent_throw A e : silent P (@throw World A e).
Proof. intros st o st' H. now inversion H. Qed.

Lemma silent_lift A (r : exn + A) : silent P (lift r).
Proof. destruct r; [apply silent_throw|apply silent_ret]. Qed.

Lemma silent_process_exit A code : silent P (@process_exit World A code).
Proof. intros st o st' H. now inversion H. Qed.

Lemma silent_out_of_fuel A :
  silent P (fun st : State World => (@OutOfFuel A, st)).
Proof. intros st o st' H. now inversion H. Qed.

Lemma silent_emit ev : P ev = false -> silent P (emit ev).
Proof.
  intros Hev st o st' H. inversion H; subst. cbn [snd].
  rewrite filter_app. cbn [filter]. rewrite Hev. apply app_nil_r.
Qed.

Lemma silent_console_error line : silent P (console_error line).
Proof. apply silent_emit, P_stderr. Qed.

Lemma silent_fetch_json request : silent P (fetch_json fetch request).
Proof.
  intros st o st' H. unfold fetch_json in H.
  destruct (fetch request (fst st)) as [r w1]. inversion H; subst. cbn [snd].
  rewrite filter_app. cbn [filter]. rewrite P_fetch. apply app_nil_r.
Qed.

Lemma silent_bind A B (c : M World A) (k : A -> M World B) :
  silent P c -> (forall a, silent P (k a)) -> silent P (bind c k).
Proof.
  intros Hc Hk st o st' H. unfold bind in H.
  destruct (c st) as [[a|e|code|] st1] eqn:E;
    try (inversion H; subst; now apply (Hc _ _ _ E)).
  rewrite (Hk a _ _ _ H). now apply (Hc _ _ _ E).
Qed.

Ltac silent_step :=
  lazymatch goal with
  | |- silent _ (bind _ _) => apply silent_bind; [|intro]
  | |- silent _ (ret _) => apply silent_ret
  | |- silent _ (throw _) => apply silent_throw
  | |- silent _ (lift _) => apply silent_lift
  | |- silent _ (process_exit _) => apply silent_process_exit
  | |- silent _ (console_error _) => apply silent_console_error
  | |- silent _ (fetch_json _ _) => apply silent_fetch_json
  | |- silent _ (fun st => (OutOfFuel, st)) => apply silent_out_of_fuel
  | |- silent _ (if ?b then _ else _) => destruct b
  | |- silent _ (match ?o with Some _ => _ | None => _ end) => destruct o
  | |- silent _ (match ?l with [] => _ | _ :: _ => _ end) => destruct l
  end.

Lemma silent_getChannelId handle :
  silent P (getChannelId fetch API_KEY handle).
Proof. unfold getChannelId. cbv zeta. repeat silent_step. Qed.

Lemma silent_getUploadsPlaylistId channelId :
  silent P (getUploadsPlaylistId fetch API_KEY channelId).
Proof. unfold getUploadsPlaylistId. cbv zeta. repeat silent_step. Qed.

Lemma silent_getAllVideoIds_loop fuel : forall playlistId videoIds token,
  silent P (getAllVideoIds_loop fetch API_KEY fuel playlistId videoIds token).
Proof.
  induction fuel as [|fuel IH]; intros playlistId videoIds token;
    cbn [getAllVideoIds_loop]; repeat silent_step.
  apply IH.
Qed.

Lemma silent_getVideoDetails_loop ids : forall n i videos,
  length ids - i <= n ->
  silent P (getVideoDetails_loop fetch API_KEY ids i videos).
Proof.
  induction n as [|n IH]; intros i videos Hn.
  - rewrite getVideoDetails_loop_done by lia. silent_step.
  - destruct (le_lt_dec (length ids) i) as [Hi|Hi].
    + rewrite getVideoDetails_loop_done by lia. silent_step.
    + rewrite getVideoDetails_loop_step by lia.
      repeat silent_step. apply IH. lia.
Qed.

Lemma silent_getVideoDetails ids :
  silent P (getVideoDetails fetch API_KEY ids).
Proof. apply silent_getVideoDetails_loop with (n := length ids). lia. Qed.

Lemma silent_main_fetch fuel : silent P (main_fetch fetch API_KEY fuel).
Proof.
  unfold main_fetch.
  repeat first
    [ lazymatch goal with
      | |- silent _ (getChannelId _ _ _) => apply silent_getChannelId
      | |- silent _ (getUploadsPlaylistId _ _ _) =>
          apply silent_getUploadsPlaylistId
      | |- silent _ (getAllVideoIds _ _ _ _) => apply silent_getAllVideoIds_loop
      | |- silent _ (getVideoDetails _ _ _) => apply silent_getVideoDetails
      end
    | silent_step ].
Qed.

End Silent.

(** The lines of the table. *)
Definition tableLines (videos : list Video) : list jsstring :=
  [ nl ++ lit "# All Videos from @aidotengineer sorted by popularity" ++ nl;
    lit "Total: " ++ nat_toString (length videos) ++ lit " videos" ++ nl;
    lit "| Rank | Views | Likes | Duration | Title | URL |";
    lit "|------|-------|-------|----------|-------|-----|" ]
  ++ mapi tableRow videos.

Lemma forEach_tableRow videos : forall index (w : World) tr,
  forEach_from index
    (fun video index => @console_log World (tableRow video index)) videos (w, tr)
  = (Ok tt, (w, tr ++ map EStdout (mapi_from index tableRow videos))).
Proof.
  induction videos as [|v videos IH]; intros index w tr;
    cbn [forEach_from mapi_from map].
  - unfold ret. now rewrite app_nil_r.
  - unfold bind at 1, console_log at 1, emit at 1. cbn [fst snd].
    rewrite IH, <- app_assoc. reflexivity.
Qed.

Lemma main_table_run videos (w : World) tr :
  main_table videos (w, tr) = (Ok tt, (w, tr ++ map EStdout (tableLines videos))).
Proof.
  unfold main_table, tableLines, forEach, mapi.
  repeat (unfold bind at 1, console_log at 1, emit at 1; cbn [fst snd]).
  rewrite forEach_tableRow. cbn [map app].
  now rewrite <- !app_assoc.
Qed.

(** The run of [main] after the videos are fetched. *)
Lemma main_after_fetch fuel st :
  main fetch API_KEY fuel st
  = match main_fetch fetch API_KEY fuel st with
    | (Ok videos, (w, tr)) =>
        (Ok tt,
         (w, tr ++ map EStdout (tableLines (sortByViews videos))
               ++ [EWrite (lit "youtube-videos.json")
                          (jsonOutput (sortByViews videos));
                   EStderr (nl ++ nl
                            ++ lit "JSON output saved to youtube-videos.json")]))
    | (Throw e, st') => (Throw e, st')
    | (Exit code, st') => (Exit code, st')
    | (OutOfFuel, st') => (OutOfFuel, st')
    end.
Proof.
  unfold main, bind at 1.
  destruct (main_fetch fetch API_KEY fuel st) as [[videos|e|code|] [w tr]];
    try reflexivity.
  cbv zeta. unfold bind at 1. rewrite main_table_run.
  unfold bind, Bun_write, console_error, emit. cbn [fst snd].
  now rewrite <- !app_assoc.
Qed.


(** *** Errors *)

(** When [main] rejects, a stage before the table rejected. *)
Lemma main_Throw fuel st e st' :
  main fetch API_KEY fuel st = (Throw e, st') ->
  main_fetch fetch API_KEY fuel st = (Throw e, st').
Proof.
  rewrite main_after_fetch.
  destruct (main_fetch fetch API_KEY fuel st) as [[videos|e1|code|] [w tr]];
    congruence.
Qed.

(** C2, as the code has it: when a stage of the pipeline throws (a
    rejected request, a channel that is not found, a property read through
    a missing object), the error reaches the handler of
    [main().catch(console.error)] and is printed, nothing after the failing
    stage runs, no table line is printed and no file is written, and the
    process then ends with exit code 0. *)
Theorem pipeline_error_is_printed fuel w e st :
  main fetch API_KEY fuel (w, []) = (Throw e, st) ->
  program fetch API_KEY fuel w = (Ok tt, (fst st, snd st ++ [EStderrExn e])) /\
  main_fetch fetch API_KEY fuel (w, []) = (Throw e, st) /\
  writes (snd st ++ [EStderrExn e]) = [] /\
  exitCode (fst (program fetch API_KEY fuel w)) = Some 0%Z.
Proof.
  intros Hm.
  assert (Hp : program fetch API_KEY fuel w
               = (Ok tt, (fst st, snd st ++ [EStderrExn e]))).
  { unfold program. now rewrite Hm. }
  pose proof (main_Throw _ _ Hm) as Hr.
  repeat split.
  - exact Hp.
  - exact Hr.
  - unfold writes. rewrite filter_app. cbn [filter is_write].
    rewrite app_nil_r.
    refine (@silent_main_fetch is_write _ _ fuel _ _ _ Hr); reflexivity.
  - now rewrite Hp.
Qed.

(** *** Requests and exit codes of the stages *)

(** A request to the API that carries the key. *)
Definition apiRequest (request : jsstring) : Prop :=
  exists a b,
    request = lit "https://www.googleapis.com/youtube/v3/" ++ a
              ++ lit "&key=" ++ template API_KEY ++ b.

Definition requestOk (ev : event) : Prop :=
  match ev with
  | EFetch request => apiRequest request
  | _ => True
  end.

(** A computation that does not call [process.exit], only adds events to
    the trace, and sends only requests to the API with the key. *)
Definition stage {A} (c : M World A) : Prop :=
  forall st o st',
    c st = (o, st') ->
    (forall code, o <> Exit code) /\
    exists tr', snd st' = snd st ++ tr' /\ Forall requestOk tr'.

Lemma stage_pure A (o : outcome A) :
  (forall code, o <> Exit code) -> stage (fun st => (o, st)).
Proof.
  intros Ho st o' st' H. inversion H; subst. split; [exact Ho|].
  exists []. split; [now rewrite app_nil_r|constructor].
Qed.

Lemma stage_ret A (a : A) : stage (ret a).
Proof. apply stage_pure. discriminate. Qed.

Lemma stage_throw A e : stage (@throw World A e).
Proof. apply stage_pure. discriminate. Qed.

Lemma stage_lift A (r : exn + A) : stage (lift r).
Proof. destruct r; [apply stage_throw|apply stage_ret]. Qed.

Lemma stage_emit ev : requestOk ev -> stage (emit ev).
Proof.
  intros Hev st o st' H. inversion H; subst. split; [discriminate|].
  exists [ev]. cbn [snd]. auto.
Qed.

Lemma stage_fetch_json request :
  apiRequest request -> stage (fetch_json fetch request).
Proof.
  intros Hr st o st' H. unfold fetch_json in H.
  destruct (fetch request (fst st)) as [r w1]. inversion H; subst. split.
  - destruct r; discriminate.
  - exists [EFetch request]. cbn [snd]. split; [reflexivity|].
    constructor; [exact Hr|constructor].
Qed.

Lemma stage_bind A B (c : M World A) (k : A -> M World B) :
  stage c -> (forall a, stage (k a)) -> stage (bind c k).
Proof.
  intros Hc Hk st o st' H. unfold bind in H.
  destruct (c st) as [[a|e|code|] st1] eqn:E;
    try (inversion H; subst; destruct (Hc _ _ _ E) as [Hx Ht];
         split; [discriminate || exact Hx|exact Ht]).
  - destruct (Hc _ _ _ E) as [_ (tr1 & E1 & F1)].
    destruct (Hk a _ _ _ H) as [Hx (tr2 & E2 & F2)].
    split; [exact Hx|]. exists (tr1 ++ tr2).
    rewrite E2, E1, app_assoc. split; [reflexivity|].
    apply Forall_app. auto.
  - destruct (Hc _ _ _ E) as [Hx _]. now destruct (Hx code).
Qed.

Ltac stage_step :=
  lazymatch goal with
  | |- stage (bind _ _) => apply stage_bind; [|intro]
  | |- stage (ret _) => apply stage_ret
  | |- stage (throw _) => apply stage_throw
  | |- stage (lift _) => apply stage_lift
  | |- stage (console_error _) => apply stage_emit; exact I
  | |- stage (console_log _) => apply stage_emit; exact I
  | |- stage (Bun_write _ _) => apply stage_emit; exact I
  | |- stage (fun st => (OutOfFuel, st)) => apply stage_pure; discriminate
  | |- stage (if ?b then _ else _) => destruct b
  | |- stage (match ?o with Some _ => _ | None => _ end) => destruct o
  | |- stage (match ?l with [] => _ | _ :: _ => _ end) => destruct l
  end.

Lemma apiRequest_channel handle :
  apiRequest
    (lit "https://www.googleapis.com/youtube/v3/channels?part=id&forHandle="
     ++ remove_first 64%N handle ++ lit "&key=" ++ template API_KEY).
Proof.
  exists (lit "channels?part=id&forHandle=" ++ remove_first 64%N handle), [].
  rewrite app_nil_r, <- !app_assoc. reflexivity.
Qed.

Lemma apiRequest_uploads channelId :
  apiRequest
    (lit "https://www.googleapis.com/youtube/v3/channels?part=contentDetails&id="
     ++ channelId ++ lit "&key=" ++ template API_KEY).
Proof.
  exists (lit "channels?part=contentDetails&id=" ++ channelId), [].
  rewrite app_nil_r, <- !app_assoc. reflexivity.
Qed.

Lemma apiRequest_playlistItems playlistId token :
  apiRequest (playlistItemsRequest API_KEY playlistId token).
Proof.
  exists (lit "playlistItems?part=contentDetails&playlistId=" ++ playlistId
          ++ lit "&maxResults=50"),
         (if truthy token then lit "&pageToken=" ++ template token else []).
  unfold playlistItemsRequest. rewrite <- !app_assoc. reflexivity.
Qed.

Lemma apiRequest_videos batch : apiRequest (videosRequest API_KEY batch).
Proof.
  exists (lit "videos?part=snippet,statistics,contentDetails&id="
          ++ join (lit ",") batch), [].
  unfold videosRequest. rewrite app_nil_r, <- !app_assoc. reflexivity.
Qed.

Lemma stage_getChannelId handle : stage (getChannelId fetch API_KEY handle).
Proof.
  unfold getChannelId. cbv zeta.
  apply stage_bind; [apply stage_fetch_json, apiRequest_channel|intro].
  repeat stage_step.
Qed.

Lemma stage_getUploadsPlaylistId channelId :
  stage (getUploadsPlaylistId fetch API_KEY channelId).
Proof.
  unfold getUploadsPlaylistId. cbv zeta.
  apply stage_bind; [apply stage_fetch_json, apiRequest_uploads|intro].
  repeat stage_step.
Qed.

Lemma stage_getAllVideoIds_loop fuel : forall playlistId videoIds token,
  stage (getAllVideoIds_loop fetch API_KEY fuel playlistId videoIds token).
Proof.
  induction fuel as [|fuel IH]; intros playlistId videoIds token;
    cbn [getAllVideoIds_loop]; [stage_step|].
  apply stage_bind; [apply stage_fetch_json, apiRequest_playlistItems|intro].
  repeat stage_step. apply IH.
Qed.

Lemma stage_getVideoDetails_loop ids : forall n i videos,
  length ids - i <= n ->
  stage (getVideoDetails_loop fetch API_KEY ids i videos).
Proof.
  induction n as [|n IH]; intros i videos Hn.
  - rewrite getVideoDetails_loop_done by lia. stage_step.
  - destruct (le_lt_dec (length ids) i) as [Hi|Hi].
    + rewrite getVideoDetails_loop_done by lia. stage_step.
    + rewrite getVideoDetails_loop_step by lia.
      apply stage_bind; [apply stage_fetch_json, apiRequest_videos|intro].
      repeat stage_step. apply IH. lia.
Qed.

Lemma stage_main_fetch fuel :
  truthy API_KEY = true -> stage (main_fetch fetch API_KEY fuel).
Proof.
  intros Hk. unfold main_fetch. rewrite Hk. cbn [negb].
  repeat first
    [ lazymatch goal with
      | |- stage (getChannelId _ _ _) => apply stage_getChannelId
      | |- stage (getUploadsPlaylistId _ _ _) =>
          apply stage_getUploadsPlaylistId
      | |- stage (getAllVideoIds _ _ _ _) => apply stage_getAllVideoIds_loop
      | |- stage (getVideoDetails _ _ ?ids) =>
          apply stage_getVideoDetails_loop with (n := length ids); lia
      end
    | stage_step ].
Qed.

Lemma stage_forEach A (body : A -> nat -> M World unit) l :
  (forall x i, stage (body x i)) ->
  forall index, stage (forEach_from index body l).
Proof.
  intros Hb. induction l as [|x l IH]; intros index; cbn [forEach_from].
  - stage_step.
  - apply stage_bind; [apply Hb|intro; apply IH].
Qed.

Lemma stage_main fuel :
  truthy API_KEY = true -> stage (main fetch API_KEY fuel).
Proof.
  intros Hk. unfold main.
  apply stage_bind; [now apply stage_main_fetch|intro]. cbv zeta.
  unfold main_table, forEach.
  repeat first
    [ lazymatch goal with
      | |- stage (forEach_from _ _ _) => apply stage_forEach; intros
      end
    | stage_step ].
Qed.


(** X2: the exit code is 1 exactly when the key is missing (undefined or
    empty); every other run that ends, failed stages included, ends with
    code 0, and no exception escapes the handler. *)
Theorem exit_code_one_iff_missing_key fuel w :
  (exitCode (fst (program fetch API_KEY fuel w)) = Some 1%Z
   <-> truthy API_KEY = false) /\
  (forall code, exitCode (fst (program fetch API_KEY fuel w)) = Some code ->
                code = 0%Z \/ code = 1%Z) /\
  (forall e, fst (program fetch API_KEY fuel w) <> Throw e).
Proof.
  destruct (truthy API_KEY) eqn:Hk.
  - pose proof (@stage_main fuel Hk) as Hs.
    unfold program.
    destruct (main fetch API_KEY fuel (w, [])) as [[[]|e|code|] st] eqn:E;
      cbn [emit fst exitCode].
    + repeat split; try discriminate. intros code H. inversion H. auto.
    + repeat split; try discriminate. intros code H. inversion H. auto.
    + destruct (Hs _ _ _ E) as [Hx _]. now destruct (Hx code).
    + repeat split; discriminate.
  - unfold program, main, main_fetch. rewrite Hk.
    cbn. repeat split; try discriminate. intros code H. inversion H. auto.
Qed.


(** *** The two channel lookups *)

(** X5: the handle may be given with or without its [@]: the request and the
    identifier found are the same (only the message of a failed lookup
    names the handle as it was given). *)
Theorem getChannelId_marker name st :
  ~ In 64%N name ->
  snd (getChannelId fetch API_KEY (64%N :: name) st)
  = snd (getChannelId fetch API_KEY name st) /\
  (forall channelId,
      fst (getChannelId fetch API_KEY (64%N :: name) st) = Ok channelId <->
      fst (getChannelId fetch API_KEY name st) = Ok channelId).
Proof.
  intros Hno.
  assert (E : remove_first 64%N name = name).
  { induction name as [|c name IH]; [reflexivity|]. cbn [remove_first].
    destruct (char_eqb c 64%N) eqn:Ec.
    - apply N.eqb_eq in Ec. subst c. exfalso. apply Hno. now left.
    - f_equal. apply IH. intros H. apply Hno. now right. }
  unfold getChannelId. cbv zeta.
  change (remove_first 64%N (64%N :: name)) with name. rewrite E.
  unfold bind.
  destruct (fetch_json fetch _ st) as [[data|e|code|] st1];
    cbn [fst snd]; try (split; [reflexivity|intros; split; auto]).
  destruct (Api.items data) as [[|item items]|]; cbn [fst snd ret throw];
    split; try reflexivity; intros; split; intros H; try discriminate H;
      exact H.
Qed.

(** X6: a lookup that is answered without any item fails with the message
    [Channel not found:] and the handle, after its one request. *)
Theorem getChannelId_not_found handle w tr data w1 :
  fetch (lit "https://www.googleapis.com/youtube/v3/channels?part=id&forHandle="
         ++ remove_first 64%N handle ++ lit "&key=" ++ template API_KEY) w
  = (inr data, w1) ->
  itemsOrEmpty data = [] ->
  exists request,
    getChannelId fetch API_KEY handle (w, tr)
    = (Throw (Error (lit "Channel not found: " ++ handle)),
       (w1, tr ++ [EFetch request])).
Proof.
  intros Hf He. eexists. unfold getChannelId. cbv zeta.
  erewrite bind_Ok by (apply fetch_json_Ok; exact Hf).
  unfold itemsOrEmpty in He.
  destruct (Api.items data) as [[|item items]|]; try discriminate He;
    reflexivity.
Qed.

(** The uploads playlist of an answer: that of its first item, when the
    item has [contentDetails.relatedPlaylists]. *)
Definition uploadsOf (data : Api.Response) : option jsstring :=
  match Api.items data with
  | Some (item :: _) =>
      match Api.contentDetails item with
      | Some contentDetails =>
          match Api.relatedPlaylists contentDetails with
          | Some relatedPlaylists => Some (Api.uploads relatedPlaylists)
          | None => None
          end
      | None => None
      end
  | _ => None
  end.

(** X7: the uploads lookup has no guard of its own: an answer without items,
    or whose first item lacks [contentDetails] or [relatedPlaylists], makes
    it throw a [TypeError]; otherwise it returns the playlist of the first
    item.  A rejected request is thrown as it is. *)
Theorem getUploadsPlaylistId_outcome channelId w tr :
  exists request w1,
    snd (getUploadsPlaylistId fetch API_KEY channelId (w, tr))
    = (w1, tr ++ [EFetch request]) /\
    fst (getUploadsPlaylistId fetch API_KEY channelId (w, tr))
    = match fst (fetch request w) with
      | inl e => Throw e
      | inr data =>
          match uploadsOf data with
          | Some playlistId => Ok playlistId
          | None => Throw TypeError
          end
      end.
Proof.
  set (request :=
         lit "https://www.googleapis.com/youtube/v3/channels?part=contentDetails&id="
         ++ channelId ++ lit "&key=" ++ template API_KEY).
  exists request, (snd (fetch request w)).
  assert (Hrun : getUploadsPlaylistId fetch API_KEY channelId (w, tr)
                 = (match fst (fetch request w) with
                    | inl e => Throw e
                    | inr data =>
                        match uploadsOf data with
                        | Some playlistId => Ok playlistId
                        | None => Throw TypeError
                        end
                    end, (snd (fetch request w), tr ++ [EFetch request]))).
  { unfold getUploadsPlaylistId. cbv zeta. fold request.
    unfold bind at 1, fetch_json at 1. cbn [fst snd].
    destruct (fetch request w) as [[e|data] w1]; cbn [fst snd];
      [reflexivity|].
    unfold uploadsOf.
    destruct (Api.items data) as [[|item items]|]; try reflexivity.
    cbn. destruct (Api.contentDetails item) as [cd|]; try reflexivity.
    cbn. destruct (Api.relatedPlaylists cd) as [rp|]; reflexivity. }
  rewrite Hrun. split; reflexivity.
Qed.

(** *** Loops that fail part of the way *)

(** The cursor after a sequence of pages. *)
Definition nextToken (token : option jsstring) (pages : list Api.Response)
  : option jsstring :=
  fold_left (fun _ page => Api.nextPageToken page) pages token.

(** Pages that all carry a cursor take the loop one turn each and leave
    it asking for the page after the last cursor. *)
Lemma getAllVideoIds_loop_prefix playlistId pages :
  Forall (fun page => hasCursor page = true) pages ->
  Forall pageOk pages ->
  forall w w' tr videoIds token,
    answers fetch w (pageRequests API_KEY playlistId token pages) w' ->
    exists tr',
      fetches tr' = map fst (pageRequests API_KEY playlistId token pages) /\
      forall fuel,
        getAllVideoIds_loop fetch API_KEY (length pages + fuel) playlistId
          videoIds token (w, tr)
        = getAllVideoIds_loop fetch API_KEY fuel playlistId
            (videoIds ++ concat (map pageIds pages))
            (nextToken token pages) (w', tr ++ tr').
Proof.
  induction pages as [|page rest IH];
    intros Hc Hok w w' tr videoIds token Ha.
  - inversion Ha; subst. exists []. split; [reflexivity|].
    intros fuel. cbn [length Nat.add map concat nextToken fold_left].
    now rewrite !app_nil_r.
  - inversion Hc as [|? ? Hc1 Hc2]; subst.
    inversion Hok as [|? ? Hp Hrest]; subst.
    cbn [pageRequests] in Ha.
    inversion Ha as [|? request data w1 later ? Hf Hlater]; subst.
    edestruct (IH Hc2 Hrest) as (tr' & Hfe & Hrun); [exact Hlater|].
    eexists (_ :: _ :: tr'). split; revgoals.
    + intros fuel. cbn [length Nat.add].
      rewrite (getAllVideoIds_loop_step (length rest + fuel) videoIds tr Hf Hp).
      cbv zeta. rewrite Hc1, Hrun. cbn [map concat nextToken fold_left].
      now rewrite <- !app_assoc.
    + cbn [fetches pageRequests map fst]. now rewrite Hfe.
Qed.

(** What makes a page request fail: a rejection, or a page with an item
    that has no [contentDetails]. *)
Definition pageFailure (r : exn + Api.Response) : option exn :=
  match r with
  | inl e => Some e
  | inr page =>
      if forallb (fun item =>
                    match Api.contentDetails item with
                    | Some _ => true
                    | None => false
                    end) (itemsOrEmpty page)
      then None else Some TypeError
  end.

Lemma pushVideoIds_fails items : forall videoIds,
  forallb (fun item =>
             match Api.contentDetails item with
             | Some _ => true
             | None => false
             end) items = false ->
  pushVideoIds videoIds items = inl TypeError.
Proof.
  induction items as [|item items IH]; intros videoIds H; [discriminate|].
  cbn [forallb pushVideoIds] in *.
  destruct (Api.contentDetails item) as [cd|]; [|reflexivity].
  cbn [read]. apply IH. exact H.
Qed.

(** X8: a page request that fails ends the collection at once: the failure
    is thrown, there is no second attempt, and the identifiers of the pages
    before are not returned. *)
Theorem getAllVideoIds_fails playlistId pages r e w w1 w2 tr fuel :
  Forall (fun page => hasCursor page = true) pages ->
  Forall pageOk pages ->
  answers fetch w (pageRequests API_KEY playlistId None pages) w1 ->
  fetch (playlistItemsRequest API_KEY playlistId (nextToken None pages)) w1
  = (r, w2) ->
  pageFailure r = Some e ->
  length pages < fuel ->
  exists tr',
    getAllVideoIds fetch API_KEY fuel playlistId (w, tr)
    = (Throw e, (w2, tr ++ tr')) /\
    length (fetches tr') = length pages + 1.
Proof.
  intros Hc Hok Ha Hf Hr Hfuel.
  destruct (@getAllVideoIds_loop_prefix playlistId pages Hc Hok
              w w1 tr [] None Ha) as (tr' & Hfe & Hrun).
  exists (tr' ++ [EFetch (playlistItemsRequest API_KEY playlistId
                            (nextToken None pages))]).
  split.
  - unfold getAllVideoIds.
    replace fuel with (length pages + S (fuel - length pages - 1)) by lia.
    rewrite Hrun. cbn [getAllVideoIds_loop].
    unfold bind at 1, fetch_json at 1. cbn [fst snd]. rewrite Hf.
    destruct r as [e'|page]; cbn [pageFailure] in Hr.
    + inversion Hr; subst. now rewrite <- app_assoc.
    + destruct (forallb _ (itemsOrEmpty page)) eqn:Hb; [discriminate|].
      inversion Hr; subst.
      rewrite (pushVideoIds_fails _ _ Hb). cbn [lift].
      unfold bind, throw. now rewrite <- app_assoc.
  - rewrite fetches_app, length_app, Hfe, length_map. cbn [fetches length].
    f_equal. clear. generalize (@None jsstring).
    induction pages; intros; simpl; auto.
Qed.

(** The requests of some batches, each with the answer it gets. *)
Definition batchAnswers (k : nat) (ids : list jsstring)
           (responses : list Api.Response) : list (jsstring * Api.Response) :=
  combine (map (videosRequest API_KEY) (batchesFrom k (length responses) ids))
          responses.

(** Batches that are answered with complete items take the loop one turn
    each; the videos built from the answers are appended in order. *)
Lemma getVideoDetails_loop_prefix ids responses :
  Forall (fun data => Forall complete (itemsOrEmpty data)) responses ->
  forall k w w' tr videos,
    k + length responses <= div_ceil (length ids) 50 ->
    answers fetch w (batchAnswers k ids responses) w' ->
    exists tr' vs,
      getVideoDetails_loop fetch API_KEY ids (50 * k) videos (w, tr)
      = getVideoDetails_loop fetch API_KEY ids (50 * (k + length responses))
          (videos ++ vs) (w', tr ++ tr') /\
      Forall2 (fun item v => videoOfItem item = inr v)
              (concat (map itemsOrEmpty responses)) vs /\
      fetches tr'
      = map (videosRequest API_KEY) (batchesFrom k (length responses) ids).
Proof.
  induction 1 as [|data responses Hd _ IH]; intros k w w' tr videos Hk Ha;
    pose proof (div_ceil_50 (length ids)) as Hc.
  - inversion Ha; subst. exists [], [].
    cbn [length]. rewrite Nat.add_0_r, !app_nil_r.
    repeat split. constructor.
  - unfold batchAnswers in Ha. cbn [length] in Ha, Hk |- *.
    rewrite batchesFrom_S in Ha |- *. cbn [map combine] in Ha |- *.
    rewrite getVideoDetails_loop_step by lia.
    set (batch := slice (50 * k) (50 * k + 50) ids) in *.
    set (later := batchesFrom (S k) (length responses) ids) in *.
    inversion Ha as [|? request data' w1 rest ? Hf Hrest]; subst.
    erewrite bind_Ok by (apply fetch_json_Ok; exact Hf).
    destruct (@pushVideos_complete (itemsOrEmpty data) Hd videos)
      as (vs1 & Hp & Hf1).
    rewrite Hp. cbn [lift].
    unfold bind at 1, ret at 1.
    unfold bind at 1, console_error at 1, emit at 1. cbn [fst snd].
    try subst batch. try subst later.
    replace (50 * k + 50) with (50 * S k) by lia.
    destruct (IH (S k) w1 w'
                ((tr ++ [EFetch (videosRequest API_KEY
                                   (slice (50 * k) (50 * S k) ids))])
                   ++ [EStderr
                         (lit "Fetched details for "
                          ++ nat_toString (length (videos ++ vs1)) ++ lit "/"
                          ++ nat_toString (length ids) ++ lit " videos...")])
                (videos ++ vs1)) as (tr' & vs2 & Hrun & Hf2 & Hfe);
      [lia|exact Hrest|].
    rewrite Hrun.
    eexists (_ :: _ :: tr'), (vs1 ++ vs2).
    split; [|split].
    + replace (S k + length responses) with (k + S (length responses)) by lia.
      rewrite <- !app_assoc. reflexivity.
    + cbn [map concat]. now apply Forall2_app.
    + cbn [fetches]. now rewrite Hfe.
Qed.

(** X9: the result holds what the endpoint returned and nothing else: the
    items of all answers, batch after batch and in the order of each
    answer, each turned into a [Video].  The items are not compared with
    the identifiers asked for, and an empty list of identifiers sends no
    request at all. *)
Theorem getVideoDetails_collects ids responses w w' tr :
  length responses = div_ceil (length ids) 50 ->
  Forall (fun data => Forall complete (itemsOrEmpty data)) responses ->
  answers fetch w (batchAnswers 0 ids responses) w' ->
  exists videos tr',
    getVideoDetails fetch API_KEY ids (w, tr) = (Ok videos, (w', tr ++ tr')) /\
    Forall2 (fun item v => videoOfItem item = inr v)
            (concat (map itemsOrEmpty responses)) videos /\
    fetches tr' = map (videosRequest API_KEY) (batches ids) /\
    (ids = [] -> videos = [] /\ tr' = []).
Proof.
  intros Hl Hd Ha.
  destruct (@getVideoDetails_loop_prefix ids responses Hd 0 w w' tr []
              ltac:(cbn [Nat.add]; rewrite Hl; apply le_n) Ha)
    as (tr' & vs & Hrun & Hf & Hfe).
  pose proof (div_ceil_50 (length ids)) as Hc.
  rewrite (@getVideoDetails_loop_done ids (50 * (0 + length responses)))
    in Hrun by (cbn [Nat.add]; lia).
  exists vs, tr'. split; [exact Hrun|split; [exact Hf|split]].
  - unfold batches. now rewrite <- Hl.
  - intros ->.
    rewrite (@getVideoDetails_loop_done [] (50 * 0)) in Hrun by (simpl; lia).
    unfold ret in Hrun. inversion Hrun as [[Hv Hw Ht]].
    split; [reflexivity|].
    apply (app_inv_head tr). now rewrite app_nil_r.
Qed.

(** An item the loop can turn into a [Video]. *)
Definition completeb (item : Api.Resource) : bool :=
  match Api.snippet item, Api.statistics item, Api.contentDetails item with
  | Some _, Some _, Some _ => true
  | _, _, _ => false
  end.

(** What makes a batch request fail: a rejection, or an item without
    [snippet], [statistics] or [contentDetails]. *)
Definition batchFailure (r : exn + Api.Response) : option exn :=
  match r with
  | inl e => Some e
  | inr data =>
      if forallb completeb (itemsOrEmpty data) then None else Some TypeError
  end.

Lemma pushVideos_fails items : forall videos,
  forallb completeb items = false -> pushVideos videos items = inl TypeError.
Proof.
  induction items as [|item items IH]; intros videos H; [discriminate|].
  cbn [forallb pushVideos] in *. unfold completeb, videoOfItem in *.
  destruct (Api.snippet item); [|reflexivity].
  destruct (Api.statistics item); [|reflexivity].
  destruct (Api.contentDetails item); [|reflexivity].
  cbn [read]. apply IH. exact H.
Qed.

(** X10: a batch request that fails ends the run of [getVideoDetails] at once
    with that failure: the batches after it are not asked for, and the
    videos of the batches before it are not returned. *)
Theorem getVideoDetails_fails ids responses r e w w1 w2 tr :
  Forall (fun data => Forall complete (itemsOrEmpty data)) responses ->
  length responses < div_ceil (length ids) 50 ->
  answers fetch w (batchAnswers 0 ids responses) w1 ->
  fetch (videosRequest API_KEY
           (slice (50 * length responses) (50 * length responses + 50) ids)) w1
  = (r, w2) ->
  batchFailure r = Some e ->
  exists tr',
    getVideoDetails fetch API_KEY ids (w, tr) = (Throw e, (w2, tr ++ tr')) /\
    length (fetches tr') = length responses + 1.
Proof.
  intros Hd Hl Ha Hf Hr.
  destruct (@getVideoDetails_loop_prefix ids responses Hd 0 w w1 tr []
              ltac:(cbn [Nat.add]; lia) Ha) as (tr' & vs & Hrun & _ & Hfe).
  pose proof (div_ceil_50 (length ids)) as Hc.
  cbn [Nat.add app] in Hrun.
  exists (tr' ++ [EFetch (videosRequest API_KEY
                            (slice (50 * length responses)
                                   (50 * length responses + 50) ids))]).
  split.
  - unfold getVideoDetails. change 0 with (50 * 0) at 1. rewrite Hrun.
    rewrite getVideoDetails_loop_step by lia.
    unfold bind at 1, fetch_json at 1. cbn [fst snd]. rewrite Hf.
    destruct r as [e'|data]; cbn [batchFailure] in Hr.
    + inversion Hr; subst. now rewrite <- app_assoc.
    + destruct (forallb completeb (itemsOrEmpty data)) eqn:Hb; [discriminate|].
      inversion Hr; subst.
      rewrite (pushVideos_fails _ _ Hb). cbn [lift].
      unfold bind, throw. now rewrite <- app_assoc.
  - rewrite fetches_app, length_app, Hfe, length_map, batchesFrom_length.
    reflexivity.
Qed.






End PipelineFacts.

(** ** Sorting and ranks *)

(** [a] may stand before [b] in the sorted list. *)
Definition byViews (a b : Video) : Prop := (viewCount b <= viewCount a)%Z.

Lemma insert_sorted_perm {A} (compare : A -> A -> Z) x l :
  Permutation (insert_sorted compare x l) (x :: l).
Proof.
  induction l as [|y l IH]; simpl; [reflexivity|].
  destruct (0 <? compare x y)%Z; [|reflexivity].
  rewrite IH. apply perm_swap.
Qed.

Lemma sort_perm {A} (compare : A -> A -> Z) l :
  Permutation (sort compare l) l.
Proof.
  induction l as [|x l IH]; simpl; [reflexivity|].
  rewrite insert_sorted_perm. now constructor.
Qed.

Lemma insert_byViews x l :
  Sorted byViews l ->
  Sorted byViews
    (insert_sorted (fun a b => (viewCount b - viewCount a)%Z) x l).
Proof.
  induction 1 as [|y l Hs IH Hh]; simpl.
  - repeat constructor.
  - destruct (0 <? viewCount y - viewCount x)%Z eqn:E.
    + apply Z.ltb_lt in E. constructor; [assumption|].
      destruct Hh as [|z l Hz]; simpl.
      * constructor. unfold byViews. lia.
      * destruct (0 <? viewCount z - viewCount x)%Z;
          constructor; unfold byViews in *; lia.
    + apply Z.ltb_ge in E. constructor.
      * now constructor.
      * constructor. unfold byViews. lia.
Qed.

Lemma sortByViews_sorted videos : StronglySorted byViews (sortByViews videos).
Proof.
  apply Sorted_StronglySorted.
  - intros a b c. unfold byViews. lia.
  - unfold sortByViews, sort.
    induction videos as [|v videos IH]; simpl; [constructor|].
    now apply insert_byViews.
Qed.

Lemma insert_byViews_filter k x l :
  filter (fun v => (viewCount v =? k)%Z)
         (insert_sorted (fun a b => (viewCount b - viewCount a)%Z) x l)
  = filter (fun v => (viewCount v =? k)%Z) (x :: l).
Proof.
  induction l as [|y l IH]; [reflexivity|].
  cbn [insert_sorted].
  destruct (0 <? viewCount y - viewCount x)%Z eqn:E; [|reflexivity].
  apply Z.ltb_lt in E. cbn [filter] in IH |- *. rewrite IH.
  destruct (Z.eqb_spec (viewCount x) k), (Z.eqb_spec (viewCount y) k);
    try reflexivity; lia.
Qed.

(** X16: the sort is stable: videos with the same view count keep their
    order. *)
Lemma sortByViews_stable k videos :
  filter (fun v => (viewCount v =? k)%Z) (sortByViews videos)
  = filter (fun v => (viewCount v =? k)%Z) videos.
Proof.
  unfold sortByViews, sort.
  induction videos as [|x videos IH]; [reflexivity|].
  cbn [fold_right]. rewrite insert_byViews_filter.
  cbn [filter]. now rewrite IH.
Qed.

Lemma StronglySorted_nth {A} (R : A -> A -> Prop) l :
  StronglySorted R l ->
  forall i j a b,
    i < j -> nth_error l i = Some a -> nth_error l j = Some b -> R a b.
Proof.
  induction 1 as [|x l Hs IH Hf]; intros i j a b Hij Ha Hb.
  - destruct i; discriminate.
  - destruct j as [|j]; [lia|]. simpl in Hb.
    destruct i as [|i]; simpl in Ha.
    + inversion Ha; subst. rewrite Forall_forall in Hf.
      eapply Hf, nth_error_In, Hb.
    + apply (IH i j a b); [lia|assumption|assumption].
Qed.

Lemma mapi_from_nth {A B} (f : A -> nat -> B) l : forall k i,
  nth_error (mapi_from k f l) i
  = option_map (fun x => f x (k + i)) (nth_error l i).
Proof.
  induction l as [|x l IH]; intros k [|i]; simpl; try reflexivity.
  - now rewrite Nat.add_0_r.
  - rewrite IH. now rewrite Nat.add_succ_r.
Qed.

Lemma mapi_from_length {A B} (f : A -> nat -> B) l : forall k,
  length (mapi_from k f l) = length l.
Proof. induction l; intros; simpl; auto. Qed.

Lemma jsonOutput_nth videos i entry :
  nth_error (jsonOutput videos) i = Some entry ->
  nth_error videos i = Some (video entry) /\
  rank entry = i + 1 /\
  durationFormatted entry = formatDuration (duration (video entry)).
Proof.
  unfold jsonOutput, mapi. rewrite mapi_from_nth.
  destruct (nth_error videos i) as [v|]; [|discriminate].
  simpl. intros H. inversion H; subst. auto.
Qed.

Lemma map_mapi_from {A B C} (g : B -> C) (f : A -> nat -> B) (h : A -> C) :
  (forall x i, g (f x i) = h x) ->
  forall l k, map g (mapi_from k f l) = map h l.
Proof.
  intros Hg. induction l as [|x l IH]; intros k; simpl; [reflexivity|].
  now rewrite Hg, IH.
Qed.

Lemma jsonOutput_videos videos : map video (jsonOutput videos) = videos.
Proof.
  unfold jsonOutput, mapi.
  rewrite map_mapi_from with (h := fun v => v); [apply map_id|reflexivity].
Qed.

(** C4: after the sort by view count, the rank of an entry of the output
    is its position plus one, whatever the video is; and of two entries the
    one with more views stands earlier and has the smaller rank.  The
    entries are the videos of the list, each once. *)
Theorem rank_follows_views L i j ei ej :
  nth_error (jsonOutput (sortByViews L)) i = Some ei ->
  nth_error (jsonOutput (sortByViews L)) j = Some ej ->
  (viewCount (video ei) > viewCount (video ej))%Z ->
  rank ei = i + 1 /\ rank ej = j + 1 /\ i < j /\ rank ei < rank ej /\
  (exists rest, tableRow (video ei) i
                = lit "| " ++ nat_toString (rank ei) ++ rest) /\
  Permutation (map video (jsonOutput (sortByViews L))) L.
Proof.
  intros Hi Hj Hv.
  apply jsonOutput_nth in Hi as (Hi & Ri & _).
  apply jsonOutput_nth in Hj as (Hj & Rj & _).
  assert (Hij : i < j).
  { destruct (Nat.lt_trichotomy i j) as [H|[H|H]]; [exact H| |].
    - subst j. rewrite Hi in Hj. inversion Hj as [E]. rewrite E in Hv. lia.
    - pose proof (StronglySorted_nth (sortByViews_sorted L) H Hj Hi) as Hr.
      unfold byViews in Hr. lia. }
  repeat split; try lia.
  - unfold tableRow. rewrite Ri. eexists. reflexivity.
  - rewrite jsonOutput_videos. apply sort_perm.
Qed.

(** C9: for a video at position [i] of the sorted list, the entry of the
    JSON output at [i] holds the video itself, with its full title, and
    the table line for it (after the four heading lines) shows the title
    cell between the duration and the URL: the first 57 characters and
    three dots, 60 characters in all, when the title is longer than 60
    characters, and the title itself otherwise. *)
Theorem title_truncation L i v :
  nth_error (sortByViews L) i = Some v ->
  (exists entry, nth_error (jsonOutput (sortByViews L)) i = Some entry /\
                 video entry = v /\ title (video entry) = title v) /\
  nth_error (tableLines (sortByViews L)) (4 + i) = Some (tableRow v i) /\
  (exists before, tableRow v i
                  = before ++ lit " | " ++ rowTitle v
                    ++ lit " | " ++ url v ++ lit " |") /\
  (60 < length (title v) ->
   rowTitle v = firstn 57 (title v) ++ lit "..." /\ length (rowTitle v) = 60) /\
  (length (title v) <= 60 -> rowTitle v = title v).
Proof.
  intros Hv. split; [|split; [|split; [|split]]].
  - unfold jsonOutput, mapi.
    eexists. rewrite mapi_from_nth, Hv. simpl. eauto.
  - unfold tableLines, mapi.
    change (4 + i) with (S (S (S (S i)))). cbn [app nth_error].
    now rewrite mapi_from_nth, Hv.
  - unfold tableRow. eexists. rewrite !app_assoc. reflexivity.
  - intros Hlen. unfold rowTitle.
    destruct (60 <? length (title v)) eqn:E; [|apply Nat.ltb_ge in E; lia].
    unfold slice. rewrite Nat.sub_0_r, skipn_O. split; [reflexivity|].
    rewrite length_app, length_firstn.
    change (length (lit "...")) with 3. lia.
  - intros Hlen. unfold rowTitle.
    destruct (60 <? length (title v)) eqn:E; [apply Nat.ltb_lt in E; lia|].
    reflexivity.
Qed.

(** ** Concrete runs *)

Definition sampleKey : option jsstring := Some (lit "KEY").

Definition sampleVideo (name titleText : string) (views : Z) : Video :=
  {| id := lit name;
     title := lit titleText;
     publishedAt := lit "2023-12-24T10:00:00Z";
     viewCount := views;
     likeCount := 7;
     commentCount := 1;
     duration := lit "PT12M5S";
     url := lit "https://www.youtube.com/watch?v=" ++ lit name |}.

Definition sampleVideos : list Video :=
  [ sampleVideo "a" "Agents" 10;
    sampleVideo "b" "Evals" 30;
    sampleVideo "c" "Retrieval" 20 ].

Definition sampleEntry (r : nat) (v : Video) : OutputEntry :=
  {| rank := r; video := v; durationFormatted := lit "12:05" |}.

Lemma rank_follows_views_witness :
  rank (sampleEntry 1 (sampleVideo "b" "Evals" 30)) = 0 + 1 /\
  rank (sampleEntry 3 (sampleVideo "a" "Agents" 10)) = 2 + 1 /\
  0 < 2 /\
  rank (sampleEntry 1 (sampleVideo "b" "Evals" 30))
  < rank (sampleEntry 3 (sampleVideo "a" "Agents" 10)) /\
  (exists rest,
      tableRow (video (sampleEntry 1 (sampleVideo "b" "Evals" 30))) 0
      = lit "| "
        ++ nat_toString (rank (sampleEntry 1 (sampleVideo "b" "Evals" 30)))
        ++ rest) /\
  Permutation (map video (jsonOutput (sortByViews sampleVideos))) sampleVideos.
Proof.
  apply (@rank_follows_views sampleVideos 0 2
           (sampleEntry 1 (sampleVideo "b" "Evals" 30))
           (sampleEntry 3 (sampleVideo "a" "Agents" 10)));
    [reflexivity | reflexivity | simpl; lia].
Defined.

(** A title of 70 characters. *)
Definition longVideo : Video :=
  sampleVideo "d"
    "0123456789012345678901234567890123456789012345678901234567890123456789"
    5.

Lemma title_truncation_witness :
  length (title longVideo) = 70 /\
  rowTitle longVideo
  = lit "012345678901234567890123456789012345678901234567890123456..." /\
  length (rowTitle longVideo) = 60 /\
  exists entry,
    nth_error (jsonOutput (sortByViews [longVideo])) 0 = Some entry /\
    title (video entry) = title longVideo.
Proof.
  destruct (@title_truncation [longVideo] 0 longVideo eq_refl)
    as ((entry & He & _ & Ht) & _ & _ & Hlong & _).
  assert (H70 : 60 < length (title longVideo)) by (vm_compute; lia).
  destruct (Hlong H70) as [Hr Hl].
  split; [reflexivity|split; [exact Hr|split; [exact Hl|]]].
  exists entry. split; [exact He|exact Ht].
Defined.

(** Two pages: two identifiers and a cursor, then one identifier and no
    cursor. *)
Definition playlistItem (videoId : string) : Api.Resource :=
  {| Api.id := lit "item-" ++ lit videoId;
     Api.snippet := None;
     Api.statistics := None;
     Api.contentDetails :=
       Some {| Api.relatedPlaylists := None;
               Api.videoId := lit videoId;
               Api.duration := [] |} |}.

Definition twoPages : list Api.Response :=
  [ {| Api.items := Some [playlistItem "a"; playlistItem "b"];
       Api.nextPageToken := Some (lit "CAUQAA") |};
    {| Api.items := Some [playlistItem "c"];
       Api.nextPageToken := None |} ].

Lemma scripted_answers (l : list (jsstring * Api.Response)) :
  answers scripted (map (fun x => inr (snd x)) l) l [].
Proof.
  induction l as [|[request data] l IH]; simpl.
  - constructor.
  - econstructor; [reflexivity|exact IH].
Qed.

Lemma getAllVideoIds_pages_witness :
  fst (getAllVideoIds scripted sampleKey 2 (lit "UU1")
         (map inr twoPages, []))
  = Ok [lit "a"; lit "b"; lit "c"].
Proof.
  destruct (@getAllVideoIds_pages Script scripted sampleKey (lit "UU1")
              twoPages (map inr twoPages) [] [] eq_refl)
    as (tr' & Hrun & _).
  - repeat constructor; discriminate.
  - apply (scripted_answers (pageRequests sampleKey (lit "UU1") None twoPages)).
  - exact (f_equal fst (Hrun 2 (le_n 2))).
Defined.

(** 120 identifiers, of which the endpoint does not know [v7]. *)
Definition manyIds : list jsstring :=
  map (fun k => lit "v" ++ nat_toString k) (seq 0 120).

Definition videoItem (videoId : jsstring) : Api.Resource :=
  {| Api.id := videoId;
     Api.snippet :=
       Some {| Api.title := lit "Talk " ++ videoId;
               Api.publishedAt := lit "2023-12-24T10:00:00Z" |};
     Api.statistics :=
       Some {| Api.viewCount := Some 1500%N;
               Api.likeCount := None;
               Api.commentCount := Some 3%N |};
     Api.contentDetails :=
       Some {| Api.relatedPlaylists := None;
               Api.videoId := [];
               Api.duration := lit "PT1H2M10S" |} |}.

Definition knownVideos (videoId : jsstring) : option Api.Resource :=
  if str_eqb videoId (lit "v7") then None else Some (videoItem videoId).

Lemma getVideoDetails_batches_witness :
  exists videos tr',
    getVideoDetails scripted sampleKey manyIds
      (map (fun x => inr (snd x))
           (map (batchExchange sampleKey knownVideos) (batches manyIds)), [])
    = (Ok videos, ([], tr')) /\
    length (fetches tr') = 3 /\
    map (@length jsstring) (batches manyIds) = [50; 50; 20] /\
    length videos = 119.
Proof.
  assert (Hk : forall videoId item,
             knownVideos videoId = Some item -> complete item).
  { intros videoId item. unfold knownVideos.
    destruct (str_eqb videoId (lit "v7")); [discriminate|].
    intros H. inversion H. repeat split; discriminate. }
  destruct (@getVideoDetails_batches Script scripted sampleKey knownVideos
              manyIds _ [] [] Hk
              (scripted_answers
                 (map (batchExchange sampleKey knownVideos) (batches manyIds))))
    as (videos & tr' & Hrun & Hfe & Hn & _ & _ & H120 & _ & _ & H119).
  exists videos, tr'. split; [exact Hrun|split; [|split]].
  - rewrite Hfe, length_map, Hn. reflexivity.
  - apply H120. reflexivity.
  - apply H119; reflexivity.
Defined.

(** The channel lookup finds nothing. *)
Definition noChannel : Script :=
  [ inr {| Api.items := Some []; Api.nextPageToken := None |} ].

Definition notFound : exn :=
  Error (lit "Channel not found: @aidotengineer").

Lemma pipeline_error_is_printed_witness :
  fst (program scripted sampleKey 0 noChannel) = Ok tt /\
  exists tr,
    snd (snd (program scripted sampleKey 0 noChannel))
    = tr ++ [EStderrExn notFound] /\
    writes (tr ++ [EStderrExn notFound]) = [].
Proof.
  destruct (@pipeline_error_is_printed Script scripted sampleKey 0 noChannel
              notFound
              (snd (main scripted sampleKey 0 (noChannel, []))) eq_refl)
    as (Hp & _ & Hw & _).
  rewrite Hp. split; [reflexivity|].
  eexists. split; [reflexivity|exact Hw].
Defined.

(** C2 as stated fails: here a stage throws, and the process ends with
    exit code 0. *)
Lemma pipeline_error_exit_code :
  fst (main scripted sampleKey 0 (noChannel, [])) = Throw notFound /\
  exitCode (fst (program scripted sampleKey 0 noChannel)) = Some 0%Z /\
  ~ (exists code, exitCode (fst (program scripted sampleKey 0 noChannel))
                  = Some code /\ code <> 0%Z).
Proof.
  split; [reflexivity|split; [reflexivity|]].
  intros (code & Hc & Hne). apply Hne.
  change (exitCode (fst (program scripted sampleKey 0 noChannel)))
    with (Some 0%Z) in Hc.
  now inversion Hc.
Qed.

(** A rejected request for a playlist page, and a channel without
    [contentDetails]: the other two kinds of failure end the same way. *)
Definition channelItem : Api.Resource :=
  {| Api.id := lit "UC1";
     Api.snippet := None;
     Api.statistics := None;
     Api.contentDetails :=
       Some {| Api.relatedPlaylists := Some {| Api.uploads := lit "UU1" |};
               Api.videoId := [];
               Api.duration := [] |} |}.

Definition channelResponse : Api.Response :=
  {| Api.items := Some [channelItem]; Api.nextPageToken := None |}.

Definition pageRejected : Script :=
  [ inr channelResponse; inr channelResponse;
    inl (Rejected (lit "socket hang up")) ].

Definition noContentDetails : Script :=
  [ inr channelResponse;
    inr {| Api.items :=
             Some [ {| Api.id := lit "UC1"; Api.snippet := None;
                       Api.statistics := None; Api.contentDetails := None |} ];
           Api.nextPageToken := None |} ].

Example rejected_request_run :
  fst (main scripted sampleKey 3 (pageRejected, []))
  = Throw (Rejected (lit "socket hang up")) /\
  fst (program scripted sampleKey 3 pageRejected) = Ok tt /\
  writes (snd (snd (program scripted sampleKey 3 pageRejected))) = [] /\
  length (fetches (snd (snd (program scripted sampleKey 3 pageRejected)))) = 3.
Proof. repeat split; vm_compute; reflexivity. Qed.

Example missing_field_run :
  fst (main scripted sampleKey 3 (noContentDetails, [])) = Throw TypeError /\
  fst (program scripted sampleKey 3 noContentDetails) = Ok tt /\
  writes (snd (snd (program scripted sampleKey 3 noContentDetails))) = [].
Proof. repeat split; vm_compute; reflexivity. Qed.

(** A run that succeeds: two pages, three identifiers, one of them
    unknown to the details endpoint; the file holds the two videos, ranked
    by views. *)
Definition detailsItem (name titleText : string) (views : N) : Api.Resource :=
  {| Api.id := lit name;
     Api.snippet :=
       Some {| Api.title := lit titleText;
               Api.publishedAt := lit "2023-12-24T10:00:00Z" |};
     Api.statistics :=
       Some {| Api.viewCount := Some views;
               Api.likeCount := None;
               Api.commentCount := Some 3%N |};
     Api.contentDetails :=
       Some {| Api.relatedPlaylists := None;
               Api.videoId := [];
               Api.duration := lit "PT1H2M10S" |} |}.

Definition fullScript : Script :=
  [ inr channelResponse; inr channelResponse ]
  ++ map inr twoPages
  ++ [ inr {| Api.items := Some [ detailsItem "a" "Agents" 1500;
                                  detailsItem "c" "Retrieval" 2300000 ];
              Api.nextPageToken := None |} ].

Example successful_run :
  fst (program scripted sampleKey 2 fullScript) = Ok tt /\
  exitCode (fst (program scripted sampleKey 2 fullScript)) = Some 0%Z /\
  length (fetches (snd (snd (program scripted sampleKey 2 fullScript)))) = 5 /\
  exists va vc,
    writes (snd (snd (program scripted sampleKey 2 fullScript)))
    = [ EWrite (lit "youtube-videos.json")
               [ {| rank := 1; video := vc; durationFormatted := lit "1:02:10" |};
                 {| rank := 2; video := va; durationFormatted := lit "1:02:10" |} ] ] /\
    id va = lit "a" /\ id vc = lit "c" /\
    viewCount va = 1500%Z /\ viewCount vc = 2300000%Z /\ likeCount va = 0%Z.
Proof.
  split; [vm_compute; reflexivity|].
  split; [vm_compute; reflexivity|].
  split; [vm_compute; reflexivity|].
  eexists _, _. split; [vm_compute; reflexivity|].
  repeat split.
Qed.

(** ** The numbers of [formatNumber]

    The division of [formatNumber] is a binary64 division.  The lemmas
    below follow the Standard Library's specification of it step by step
    (normalisation of the operands, integer quotient with its location,
    rounding to nearest even) and bound the distance between the double
    and the exact quotient. *)

Local Open Scope Z_scope.

Lemma digits2_bounds p :
  2 ^ (Zpos (digits2_pos p) - 1) <= Zpos p < 2 ^ Zpos (digits2_pos p).
Proof.
  induction p as [p IH|p IH|]; cbn [digits2_pos].
  - rewrite Pos2Z.inj_succ.
    replace (Z.succ (Zpos (digits2_pos p)) - 1) with (Z.succ (Zpos (digits2_pos p) - 1)) by lia.
    rewrite !Z.pow_succ_r by lia. lia.
  - rewrite Pos2Z.inj_succ.
    replace (Z.succ (Zpos (digits2_pos p)) - 1) with (Z.succ (Zpos (digits2_pos p) - 1)) by lia.
    rewrite !Z.pow_succ_r by lia. lia.
  - simpl. lia.
Qed.

Lemma digits2_unique p k :
  2 ^ (k - 1) <= Zpos p < 2 ^ k -> 0 < k -> Zpos (digits2_pos p) = k.
Proof.
  intros [Hl Hu] Hk. pose proof (digits2_bounds p) as [Bl Bu].
  destruct (Z.lt_trichotomy (Zpos (digits2_pos p)) k) as [H|[H|H]]; [|exact H|].
  - assert (2 ^ Zpos (digits2_pos p) <= 2 ^ (k - 1)) by (apply Z.pow_le_mono_r; lia). lia.
  - assert (2 ^ k <= 2 ^ (Zpos (digits2_pos p) - 1)) by (apply Z.pow_le_mono_r; lia). lia.
Qed.

Lemma shr_1_pos p r s :
  shr_1 (Build_shr_record (Zpos p) r s)
  = Build_shr_record (Zpos p / 2) (Z.odd (Zpos p)) (r || s).
Proof.
  destruct p as [p|p|]; cbn [shr_1].
  - f_equal. rewrite Pos2Z.inj_xI. apply Z.div_unique with 1; lia.
  - f_equal. rewrite Pos2Z.inj_xO. apply Z.div_unique with 0; lia.
  - reflexivity.
Qed.

Lemma fexp_normal k : -1021 <= k -> fexp 53 1024 k = k - 53.
Proof. intros H. unfold fexp, emin. lia. Qed.

(** Rounding leaves a 53-bit mantissa alone. *)
Lemma binary_round_aux_normal m e :
  Zpos (digits2_pos m) = 53 -> -1074 <= e <= 971 ->
  binary_round_aux 53 1024 false (Zpos m) e loc_Exact = S754_finite false m e.
Proof.
  intros Hd He.
  assert (Hs : shr_fexp 53 1024 (Zpos m) e loc_Exact
               = (Build_shr_record (Zpos m) false false, e)).
  { unfold shr_fexp. cbn [Zdigits2]. rewrite Hd, fexp_normal by lia.
    replace (53 + e - 53 - e) with 0 by lia. reflexivity. }
  unfold binary_round_aux. rewrite Hs. cbn [shr_m loc_of_shr_record round_nearest_even].
  rewrite Hs. cbn [shr_m].
  destruct (Z.leb_spec e (1024 - 53)); [reflexivity|lia].
Qed.

Lemma iter_xO p k : Zpos (Pos.iter xO p k) = Zpos p * 2 ^ Zpos k.
Proof.
  induction k as [|k IH] using Pos.peano_ind.
  - simpl. lia.
  - rewrite Pos.iter_succ, Pos2Z.inj_xO, IH, Pos2Z.inj_succ, Z.pow_succ_r by lia.
    lia.
Qed.

(** An integer below [2^53] is its own double: the mantissa is the integer
    shifted to 53 bits. *)
Lemma of_int_finite n :
  0 < n < 2 ^ 53 ->
  exists m s,
    of_int n = S754_finite false m (- s) /\
    Zpos (digits2_pos m) = 53 /\ 0 <= s <= 52 /\ Zpos m = n * 2 ^ s.
Proof.
  intros [Hn Hu]. destruct n as [|p|p]; try lia.
  pose proof (digits2_bounds p) as [Bl Bu].
  assert (Hdg : Zpos (digits2_pos p) <= 53).
  { destruct (Z_le_gt_dec (Zpos (digits2_pos p)) 53) as [H|H]; [exact H|].
    assert (2 ^ 53 <= 2 ^ (Zpos (digits2_pos p) - 1)) by (apply Z.pow_le_mono_r; lia).
    lia. }
  unfold of_int, binary_normalize, binary_round, shl_align.
  rewrite fexp_normal by lia.
  destruct (Zpos (digits2_pos p) + 0 - 53 - 0) as [|k|k] eqn:E; try lia.
  - exists p, 0. rewrite binary_round_aux_normal by lia.
    repeat split; try lia. 
  - assert (Hm : Zpos (Pos.iter xO p k) = Zpos p * 2 ^ Zpos k) by apply iter_xO.
    assert (Hd : Zpos (digits2_pos (Pos.iter xO p k)) = 53).
    { apply digits2_unique; [|lia]. rewrite Hm.
      assert (E1 : 2 ^ 53 = 2 ^ Zpos (digits2_pos p) * 2 ^ Zpos k)
        by (rewrite <- Z.pow_add_r by lia; f_equal; lia).
      assert (E2 : 2 ^ (53 - 1) = 2 ^ (Zpos (digits2_pos p) - 1) * 2 ^ Zpos k)
        by (rewrite <- Z.pow_add_r by lia; f_equal; lia).
      rewrite E1, E2.
      assert (0 < 2 ^ Zpos k) by (apply Z.pow_pos_nonneg; lia).
      split; [apply Z.mul_le_mono_nonneg_r|apply Z.mul_lt_mono_pos_r]; lia. }
    exists (Pos.iter xO p k), (Zpos k).
    rewrite binary_round_aux_normal by lia.
    repeat split; try lia.
    f_equal. lia.
Qed.

Lemma new_location_spec M r :
  0 <= r < M ->
  new_location M r
  = if r =? 0 then loc_Exact else loc_Inexact (2 * r ?= M).
Proof.
  intros Hr. unfold new_location, new_location_even, new_location_odd.
  destruct (Z.even M) eqn:Ev; [reflexivity|].
  destruct (r =? 0); [reflexivity|]. f_equal.
  assert (Ho : Z.odd M = true) by (rewrite <- Z.negb_even, Ev; reflexivity).
  apply Z.odd_spec in Ho as [h Hh].
  destruct (Z.compare_spec (2 * r + 1) M), (Z.compare_spec (2 * r) M);
    try reflexivity; lia.
Qed.

Lemma shr_record_of_loc_m m l : shr_m (shr_record_of_loc m l) = m.
Proof. destruct l as [|[]]; reflexivity. Qed.

Lemma loc_of_shr_record_of_loc m l :
  loc_of_shr_record (shr_record_of_loc m l) = l.
Proof. destruct l as [|[]]; reflexivity. Qed.

(** The last step of [binary_round_aux]: the rounded mantissa is put back
    on 53 bits. *)
Definition finish (mx e : Z) : spec_float :=
  let '(mrs, e') := shr_fexp 53 1024 mx e loc_Exact in
  match shr_m mrs with
  | Z0 => S754_zero false
  | Zpos m => if e' <=? 1024 - 53 then S754_finite false m e'
              else S754_infinity false
  | Zneg _ => S754_nan
  end.

Lemma finish_spec mx e :
  2 ^ 52 <= mx <= 2 ^ 53 -> -1000 <= e <= 900 ->
  exists m c,
    finish mx e = S754_finite false m (e + c) /\
    0 <= c <= 1 /\ 2 ^ 52 <= Zpos m < 2 ^ 53 /\ Zpos m * 2 ^ c = mx.
Proof.
  intros Hm He. destruct (Z.eq_dec mx (2 ^ 53)) as [->|Hne].
  - exists (Z.to_pos (2 ^ 52)), 1. split; [|split; [lia|split; [|reflexivity]]].
    + unfold finish, shr_fexp.
      change (Zdigits2 (2 ^ 53)) with 54. rewrite fexp_normal by lia.
      replace (54 + e - 53 - e) with 1 by lia.
      cbn [shr iter_pos shr_record_of_loc shr_1 shr_m].
      change (2 ^ 53) with (Zpos (Z.to_pos (2 ^ 52))~0). cbn [shr_1 shr_m].
      destruct (Z.leb_spec (e + 1) (1024 - 53)); [reflexivity|lia].
    + split; [reflexivity|reflexivity].
  - destruct mx as [|p|p]; try (exfalso; lia).
    assert (Hd : Zpos (digits2_pos p) = 53) by (apply digits2_unique; lia).
    exists p, 0. split; [|split; [lia|split; [lia|lia]]].
    unfold finish, shr_fexp. cbn [Zdigits2]. rewrite Hd, fexp_normal by lia.
    replace (53 + e - 53 - e) with 0 by lia.
    cbn [shr shr_record_of_loc shr_m]. rewrite Z.add_0_r.
    destruct (Z.leb_spec e (1024 - 53)); [reflexivity|lia].
Qed.

Lemma binary_round_aux_quotient q r M e :
  2 ^ 52 <= q < 2 ^ 54 -> 0 <= r < M -> -1000 <= e <= 800 ->
  exists m j,
    binary_round_aux 53 1024 false q e (new_location M r)
    = S754_finite false m (e + j) /\
    0 <= j <= 2 /\ 2 ^ 52 <= Zpos m < 2 ^ 53 /\
    Z.abs (2 * (Zpos m * 2 ^ j) * M - 2 * (q * M + r)) <= 2 ^ j * M.
Proof.
  intros Hq Hr He. rewrite new_location_spec by assumption.
  destruct q as [|p|p]; try (exfalso; lia).
  destruct (Z_lt_ge_dec (Zpos p) (2 ^ 53)) as [Hlt|Hge].
  - assert (Hd : Zpos (digits2_pos p) = 53) by (apply digits2_unique; lia).
    set (loc := if r =? 0 then loc_Exact else loc_Inexact (2 * r ?= M)).
    assert (Hb : binary_round_aux 53 1024 false (Zpos p) e loc
                 = finish (round_nearest_even (Zpos p) loc) e).
    { unfold binary_round_aux, shr_fexp at 1. cbn [Zdigits2].
      rewrite Hd, fexp_normal by lia.
      replace (53 + e - 53 - e) with 0 by lia. cbn [shr].
      now rewrite shr_record_of_loc_m, loc_of_shr_record_of_loc. }
    rewrite Hb.
    assert (Hrne : 2 ^ 52 <= round_nearest_even (Zpos p) loc <= 2 ^ 53 /\
                   Z.abs (2 * round_nearest_even (Zpos p) loc * M
                          - 2 * (Zpos p * M + r)) <= M).
    { subst loc. destruct (Z.eqb_spec r 0) as [->|Hr0].
      - cbn [round_nearest_even]. lia.
      - destruct (Z.compare_spec (2 * r) M); cbn [round_nearest_even];
          try destruct (Z.even (Zpos p)); lia. }
    destruct Hrne as [Hrange Hnear].
    destruct (@finish_spec _ e Hrange) as (m & c & Hf & Hc & Hm & Hv); [lia|].
    exists m, c. rewrite Hf, Hv.
    assert (1 <= 2 ^ c) by (apply (Z.pow_le_mono_r 2 0 c); lia).
    repeat split; try lia. nia.
  - assert (Hd : Zpos (digits2_pos p) = 54) by (apply digits2_unique; lia).
    set (loc := if r =? 0 then loc_Exact else loc_Inexact (2 * r ?= M)).
    set (mrs := shr_1 (shr_record_of_loc (Zpos p) loc)).
    assert (Hb : binary_round_aux 53 1024 false (Zpos p) e loc
                 = finish (round_nearest_even (shr_m mrs) (loc_of_shr_record mrs))
                          (e + 1)).
    { unfold binary_round_aux, shr_fexp at 1. cbn [Zdigits2].
      rewrite Hd, fexp_normal by lia.
      replace (54 + e - 53 - e) with 1 by lia. cbn [shr iter_pos].
      reflexivity. }
    rewrite Hb.
    assert (Hrne : 2 ^ 52 <= round_nearest_even (shr_m mrs) (loc_of_shr_record mrs)
                   <= 2 ^ 53 /\
                   Z.abs (2 * (2 * round_nearest_even (shr_m mrs) (loc_of_shr_record mrs)) * M
                          - 2 * (Zpos p * M + r)) <= 2 * M).
    { subst mrs loc. destruct (Z.eqb_spec r 0) as [->|Hr0].
      - destruct p as [h|h|];
          cbn [shr_record_of_loc shr_1 orb shr_m loc_of_shr_record round_nearest_even];
          try destruct (Z.even (Zpos h)); lia.
      - destruct (Z.compare_spec (2 * r) M);
          destruct p as [h|h|];
          cbn [shr_record_of_loc shr_1 orb shr_m loc_of_shr_record round_nearest_even];
          try destruct (Z.even (Zpos h)); lia. }
    destruct Hrne as [Hrange Hnear].
    destruct (@finish_spec _ (e + 1) Hrange) as (m & c & Hf & Hc & Hm & Hv); [lia|].
    exists m, (1 + c). rewrite Hf.
    replace (2 ^ (1 + c)) with (2 * 2 ^ c) by (rewrite Z.pow_add_r by lia; reflexivity).
    replace (Zpos m * (2 * 2 ^ c)) with (2 * (Zpos m * 2 ^ c)) by ring.
    rewrite Hv.
    assert (1 <= 2 ^ c) by (apply (Z.pow_le_mono_r 2 0 c); lia).
    repeat split; try lia.
    + f_equal. lia.
    + nia.
Qed.

Lemma SFdiv_core_normal m1 s1 m2 s2 :
  Zpos (digits2_pos m1) = 53 -> Zpos (digits2_pos m2) = 53 ->
  0 <= s1 <= 52 -> 0 <= s2 <= 52 ->
  SFdiv_core_binary 53 1024 (Zpos m1) (- s1) (Zpos m2) (- s2)
  = (Zpos m1 * 2 ^ 53 / Zpos m2, s2 - s1 - 53,
     new_location (Zpos m2) ((Zpos m1 * 2 ^ 53) mod Zpos m2)).
Proof.
  intros H1 H2 Hs1 Hs2. unfold SFdiv_core_binary. cbn [Zdigits2].
  rewrite H1, H2, fexp_normal by lia. cbv zeta.
  replace (Z.min (53 + - s1 - (53 + - s2) - 53) (- s1 - - s2))
    with (s2 - s1 - 53) by lia.
  replace (- s1 - - s2 - (s2 - s1 - 53)) with 53 by lia.
  rewrite Z.shiftl_mul_pow2 by lia.
  unfold Z.div, Z.modulo.
  destruct (Z.div_eucl (Zpos m1 * 2 ^ 53) (Zpos m2)) as [q r]. reflexivity.
Qed.

(** The quotient of two integers below [2^53], as a double: a 53-bit
    mantissa [m] and an exponent [- E] with [m * 2^(-E)] within half a unit
    in the last place of [n / d]. *)
Lemma fdiv_nearest n d :
  4 <= d < 2 ^ 53 -> 0 < n < 2 ^ 53 ->
  exists m E,
    fdiv (of_int n) (of_int d) = S754_finite false m (- E) /\
    0 <= E /\ 2 ^ 52 <= Zpos m < 2 ^ 53 /\
    Z.abs (2 * Zpos m * d - 2 * n * 2 ^ E) <= d.
Proof.
  intros Hd Hn.
  destruct (@of_int_finite n Hn) as (m1 & s1 & En & D1 & Hs1 & V1).
  destruct (@of_int_finite d) as (m2 & s2 & Ed & D2 & Hs2 & V2); [lia|].
  assert (Hs2' : s2 <= 50).
  { destruct (Z_le_gt_dec s2 50) as [H|H]; [exact H|].
    pose proof (digits2_bounds m2) as [_ Bu]. rewrite D2, V2 in Bu.
    assert (2 ^ 51 <= 2 ^ s2) by (apply Z.pow_le_mono_r; lia).
    nia. }
  pose proof (digits2_bounds m1) as [B1l B1u]. rewrite D1 in B1l, B1u.
  pose proof (digits2_bounds m2) as [B2l B2u]. rewrite D2 in B2l, B2u.
  set (a := Zpos m1 * 2 ^ 53) in *.
  pose proof (Z.div_mod a (Zpos m2) ltac:(lia)) as Hdm.
  pose proof (Z.mod_pos_bound a (Zpos m2) ltac:(lia)) as Hmod.
  assert (Hq : 2 ^ 52 <= a / Zpos m2 < 2 ^ 54).
  { split.
    - apply Z.div_le_lower_bound; [lia|]. subst a.
      change (2 ^ 53) with (2 * 2 ^ 52) at 1. nia.
    - apply Z.div_lt_upper_bound; [lia|]. subst a.
      change (2 ^ 54) with (2 * 2 ^ 53). change (2 ^ 52) with 4503599627370496 in *.
      change (2 ^ 53) with 9007199254740992 in *. nia. }
  destruct (@binary_round_aux_quotient (a / Zpos m2) (a mod Zpos m2) (Zpos m2)
              (s2 - s1 - 53) Hq Hmod) as (m & j & Hr & Hj & Hm & Hnear); [lia|].
  exists m, (53 + s1 - s2 - j).
  split; [|split; [lia|split; [exact Hm|]]].
  - unfold fdiv. rewrite En, Ed. cbn [SFdiv xorb].
    rewrite SFdiv_core_normal by lia. fold a. rewrite Hr. f_equal. lia.
  - replace (a / Zpos m2 * Zpos m2 + a mod Zpos m2) with a in Hnear by lia.
    subst a. rewrite V1, V2 in Hnear.
    set (E := 53 + s1 - s2 - j).
    set (W := 2 ^ j * 2 ^ s2).
    assert (HW : 0 < W) by (subst W; apply Z.mul_pos_pos; apply Z.pow_pos_nonneg; lia).
    assert (Hp : 2 ^ s1 * 2 ^ 53 = W * 2 ^ E).
    { subst W E. rewrite <- !Z.pow_add_r by lia. f_equal. lia. }
    replace (2 * (Zpos m * 2 ^ j) * (d * 2 ^ s2) - 2 * (n * 2 ^ s1 * 2 ^ 53))
      with (W * (2 * Zpos m * d - 2 * n * 2 ^ E)) in Hnear.
    2:{ replace (n * 2 ^ s1 * 2 ^ 53) with (n * (2 ^ s1 * 2 ^ 53)) by ring.
        rewrite Hp. subst W. ring. }
    replace (2 ^ j * (d * 2 ^ s2)) with (W * d) in Hnear by (subst W; ring).
    rewrite Z.abs_mul, (Z.abs_eq W) in Hnear by lia.
    apply Z.mul_le_mono_pos_l in Hnear; assumption.
Qed.

(** Rounding the double quotient to tenths gives a tenth nearest to the
    exact quotient [n / (10 * D)], for the two divisors of [formatNumber]:
    the double is too close to [n / (10 * D)] to fall on the other side of
    a midpoint between two tenths. *)
Lemma tenths_nearest D L m E n :
  0 < D -> Z.even D = true -> 0 < L -> 2 ^ (L - 1) < 5 * D < 2 ^ L ->
  2 ^ 52 <= Zpos m < 2 ^ 53 -> 0 < n < 2 ^ 53 -> 0 <= E ->
  Z.abs (2 * Zpos m * (10 * D) - 2 * n * 2 ^ E) <= 10 * D ->
  Z.abs (2 * (D * tenths m (- E) - n)) <= D.
Proof.
  intros HD Hev HL HDL Hm Hn HE HA.
  set (P := 2 ^ E) in *.
  assert (HP5 : 5 * D <= P).
  { change (2 ^ 52) with 4503599627370496 in *.
    change (2 ^ 53) with 9007199254740992 in *. nia. }
  assert (HEL : L <= E).
  { destruct (Z_le_gt_dec L E) as [H|H]; [exact H|].
    assert (P <= 2 ^ (L - 1)) by (apply Z.pow_le_mono_r; lia). lia. }
  assert (HP : 2 ^ L <= P) by (apply Z.pow_le_mono_r; lia).
  unfold tenths. destruct (Z.leb_spec 0 (- E)) as [H0|_]; [lia|].
  replace (- - E) with E by lia. fold P.
  replace (2 ^ (1 - - E)) with (2 * P)
    by (subst P; replace (1 - - E) with (1 + E) by lia;
        rewrite Z.pow_add_r by lia; reflexivity).
  set (t := (20 * Zpos m + P) / (2 * P)).
  pose proof (Z.div_mod (20 * Zpos m + P) (2 * P) ltac:(lia)) as Hdm.
  pose proof (Z.mod_pos_bound (20 * Zpos m + P) (2 * P) ltac:(lia)) as Hmod.
  fold t in Hdm.
  destruct (Z.even_spec D) as [Hev' _]. destruct (Hev' Hev) as [h Hh].
  assert (Hu : - (D * P) - 10 * D < 2 * (P * (D * t - n)) <= D * P + 10 * D) by nia.
  destruct (Z_le_gt_dec (D * t - n) h) as [Hle|Hgt].
  - destruct (Z_le_gt_dec (- h) (D * t - n)) as [Hge|Hlt]; [lia|].
    exfalso. assert (P * (D * t - n) <= P * (- h - 1)) by (apply Z.mul_le_mono_nonneg_l; lia).
    nia.
  - exfalso. assert (P * (h + 1) <= P * (D * t - n)) by (apply Z.mul_le_mono_nonneg_l; lia).
    nia.
Qed.

(** C8: for an integer count [0 <= n < 2^53] (where a number is exactly the
    integer it holds), [formatNumber] prints [n] itself below 1,000; from
    1,000 up to 1,000,000 it prints [n / 1,000] to one decimal place and
    [K]; from 1,000,000 on [n / 1,000,000] to one decimal place and [M].
    The decimal printed is a tenth nearest to the quotient.  The three
    vectors of the specification evaluate as stated. *)
Theorem formatNumber_abbreviates n :
  0 <= n < 2 ^ 53 ->
  (n < 1000 -> formatNumber n = Z_toString n) /\
  (1000 <= n < 1000000 ->
   exists t, formatNumber n = show_tenths t ++ lit "K" /\
             0 <= t /\ Z.abs (2 * (100 * t - n)) <= 100) /\
  (1000000 <= n ->
   exists t, formatNumber n = show_tenths t ++ lit "M" /\
             0 <= t /\ Z.abs (2 * (100000 * t - n)) <= 100000) /\
  formatNumber 999 = lit "999" /\
  formatNumber 1500 = lit "1.5K" /\
  formatNumber 2300000 = lit "2.3M".
Proof.
  intros Hn.
  split; [|split; [|split; [|repeat split; vm_compute; reflexivity]]].
  - intros Hlt. unfold formatNumber.
    destruct (Z.leb_spec 1000000 n); [lia|].
    destruct (Z.leb_spec 1000 n); [lia|reflexivity].
  - intros Hr. unfold formatNumber.
    destruct (Z.leb_spec 1000000 n); [lia|].
    destruct (Z.leb_spec 1000 n); [|lia].
    destruct (@fdiv_nearest n 1000) as (m & E & Hf & HE & Hm & HA);
      [split; [lia|reflexivity]|lia|].
    rewrite Hf. cbn [toFixed1].
    exists (tenths m (- E)).
    assert (Hb : Z.abs (2 * (100 * tenths m (- E) - n)) <= 100).
    { apply (@tenths_nearest 100 9 m E n); try lia; reflexivity. }
    repeat split; [lia|exact Hb].
  - intros Hr. unfold formatNumber.
    destruct (Z.leb_spec 1000000 n); [|lia].
    destruct (@fdiv_nearest n 1000000) as (m & E & Hf & HE & Hm & HA);
      [split; [lia|reflexivity]|lia|].
    rewrite Hf. cbn [toFixed1].
    exists (tenths m (- E)).
    assert (Hb : Z.abs (2 * (100000 * tenths m (- E) - n)) <= 100000).
    { apply (@tenths_nearest 100000 19 m E n); try lia; reflexivity. }
    repeat split; [lia|exact Hb].
Qed.

Lemma formatNumber_abbreviates_witness :
  formatNumber 1234567 = lit "1.2M" /\
  exists t, formatNumber 1234567 = show_tenths t ++ lit "M" /\
            0 <= t /\ Z.abs (2 * (100000 * t - 1234567)) <= 100000.
Proof.
  assert (H : 0 <= 1234567 < 2 ^ 53) by (split; [lia|reflexivity]).
  destruct (@formatNumber_abbreviates 1234567 H) as (_ & _ & HM & _).
  split; [vm_compute; reflexivity|].
  apply HM. lia.
Defined.

(** ** Further properties of [formatNumber] *)

(** X14: a count that is a whole number of tenths of the unit is printed
    exactly: [100 * k] as [k / 10] with one decimal and [K], [100000 * k]
    as [k / 10] with one decimal and [M]. *)
Theorem formatNumber_exact_tenths k :
  10 <= k ->
  (k < 10000 -> formatNumber (100 * k) = show_tenths k ++ lit "K") /\
  (100000 * k < 2 ^ 53 ->
   formatNumber (100000 * k) = show_tenths k ++ lit "M").
Proof.
  intros Hk. split.
  - intros Hu. unfold formatNumber.
    destruct (Z.leb_spec 1000000 (100 * k)); [lia|].
    destruct (Z.leb_spec 1000 (100 * k)); [|lia].
    destruct (@fdiv_nearest (100 * k) 1000) as (m & E & Hf & HE & Hm & HA);
      [split; [lia|reflexivity]|split; [lia|]|].
    { change (2 ^ 53) with 9007199254740992. lia. }
    rewrite Hf. cbn [toFixed1].
    assert (Hb : Z.abs (2 * (100 * tenths m (- E) - 100 * k)) <= 100).
    { apply (@tenths_nearest 100 9 m E (100 * k)); try lia; reflexivity. }
    replace (tenths m (- E)) with k by lia. reflexivity.
  - intros Hu. unfold formatNumber.
    destruct (Z.leb_spec 1000000 (100000 * k)); [|lia].
    destruct (@fdiv_nearest (100000 * k) 1000000)
      as (m & E & Hf & HE & Hm & HA);
      [split; [lia|reflexivity]|lia|].
    rewrite Hf. cbn [toFixed1].
    assert (Hb : Z.abs (2 * (100000 * tenths m (- E) - 100000 * k)) <= 100000).
    { apply (@tenths_nearest 100000 19 m E (100000 * k)); try lia;
        reflexivity. }
    replace (tenths m (- E)) with k by lia. reflexivity.
Qed.

Lemma formatNumber_exact_tenths_witness :
  formatNumber (100 * 15) = lit "1.5K" /\
  formatNumber (100000 * 23) = lit "2.3M".
Proof.
  destruct (@formatNumber_exact_tenths 15 ltac:(lia)) as [HK _].
  destruct (@formatNumber_exact_tenths 23 ltac:(lia)) as [_ HM].
  split; [exact (HK ltac:(lia))|exact (HM eq_refl)].
Defined.

(** X15: just below a million the thousands are rounded up to a four-digit
    number: every count from 999,950 to 999,999 is printed as [1000.0K],
    not as [1.0M]. *)
Theorem formatNumber_rollover n :
  999950 <= n < 1000000 -> formatNumber n = lit "1000.0K".
Proof.
  intros Hn. destruct (Z.eq_dec n 999950) as [->|Hne];
    [vm_compute; reflexivity|].
  unfold formatNumber.
  destruct (Z.leb_spec 1000000 n); [lia|].
  destruct (Z.leb_spec 1000 n); [|lia].
  destruct (@fdiv_nearest n 1000) as (m & E & Hf & HE & Hm & HA);
    [split; [lia|reflexivity]|split; [lia|]|].
  { change (2 ^ 53) with 9007199254740992. lia. }
  rewrite Hf. cbn [toFixed1].
  assert (Hb : Z.abs (2 * (100 * tenths m (- E) - n)) <= 100).
  { apply (@tenths_nearest 100 9 m E n); try lia; reflexivity. }
  replace (tenths m (- E)) with 10000 by lia. reflexivity.
Qed.

Lemma formatNumber_rollover_witness : formatNumber 999987 = lit "1000.0K".
Proof. apply formatNumber_rollover. lia. Defined.

(** ** Further properties of [formatDuration] *)

Local Open Scope nat_scope.

Lemma unit_group_other u ds c rest :
  Forall (fun c => is_digit c = true) ds -> is_digit c = false ->
  char_eqb c u = false ->
  unit_group u (ds ++ c :: rest) = (None, ds ++ c :: rest).
Proof.
  intros Hd Hc Hu. unfold unit_group.
  rewrite span_digits_app by assumption.
  destruct ds; [reflexivity|]. now rewrite Hu.
Qed.

Lemma padStart_enough s n pad : n <= length s -> padStart s n pad = s.
Proof.
  intros H. unfold padStart. replace (n - length s) with 0 by lia.
  reflexivity.
Qed.

(** X12: without hours the clock string is [M:SS]: the minutes as they are
    written (not padded), [0] when absent, and the seconds on two digits
    at least, [00] when absent. *)
Theorem formatDuration_without_hours m s :
  m <> [] -> s <> [] ->
  Forall (fun c => is_digit c = true) m ->
  Forall (fun c => is_digit c = true) s ->
  formatDuration (lit "PT" ++ m ++ lit "M" ++ s ++ lit "S")
  = m ++ lit ":" ++ padStart s 2 (lit "0") /\
  formatDuration (lit "PT" ++ s ++ lit "S")
  = lit "0:" ++ padStart s 2 (lit "0") /\
  formatDuration (lit "PT" ++ m ++ lit "M") = m ++ lit ":00".
Proof.
  intros Hm Hs Dm Ds.
  assert (Lm : 1 <= length m) by (destruct m; [congruence|simpl; lia]).
  split; [|split]; unfold formatDuration.
  - change (lit "PT" ++ m ++ lit "M" ++ s ++ lit "S")
      with (80%N :: 84%N :: m ++ 77%N :: s ++ [83%N]).
    cbn [duration_match match_here char_eqb N.eqb Pos.eqb andb].
    rewrite unit_group_other by (assumption || reflexivity).
    rewrite !unit_group_present by (assumption || reflexivity).
    destruct m; [congruence|]. destruct s; [congruence|].
    cbn [group1 group2 group3 truthy template app].
    rewrite padStart_enough by (simpl; lia). reflexivity.
  - change (lit "PT" ++ s ++ lit "S") with (80%N :: 84%N :: s ++ [83%N]).
    cbn [duration_match match_here char_eqb N.eqb Pos.eqb andb].
    rewrite !unit_group_other by (assumption || reflexivity).
    rewrite unit_group_present by (assumption || reflexivity).
    destruct s; [congruence|].
    cbn [group1 group2 group3 truthy template app]. reflexivity.
  - change (lit "PT" ++ m ++ lit "M") with (80%N :: 84%N :: m ++ [77%N]).
    cbn [duration_match match_here char_eqb N.eqb Pos.eqb andb].
    rewrite unit_group_other by (assumption || reflexivity).
    rewrite unit_group_present by (assumption || reflexivity).
    destruct m; [congruence|].
    cbn [unit_group span_digits group1 group2 group3 truthy template app].
    rewrite padStart_enough by (simpl; lia). reflexivity.
Qed.

Lemma formatDuration_without_hours_witness :
  formatDuration (lit "PT" ++ lit "7" ++ lit "M" ++ lit "5" ++ lit "S")
  = lit "7" ++ lit ":" ++ padStart (lit "5") 2 (lit "0") /\
  formatDuration (lit "PT" ++ lit "5" ++ lit "S")
  = lit "0:" ++ padStart (lit "5") 2 (lit "0") /\
  formatDuration (lit "PT" ++ lit "7" ++ lit "M") = lit "7" ++ lit ":00".
Proof.
  apply formatDuration_without_hours;
    solve [discriminate | repeat constructor].
Defined.

(** X13: the match is the leftmost [PT]: whatever stands before it is dropped
    from the result, not kept. *)
Theorem formatDuration_in_context pre rest :
  ~ contains (lit "PT") pre ->
  formatDuration (pre ++ lit "PT" ++ rest) = formatDuration (lit "PT" ++ rest) /\
  duration_match (pre ++ lit "PT" ++ rest) = duration_match (lit "PT" ++ rest).
Proof.
  intros Hno.
  assert (Hm : duration_match (pre ++ lit "PT" ++ rest)
               = duration_match (lit "PT" ++ rest)).
  { induction pre as [|c pre IH]; [reflexivity|].
    assert (Hpre : ~ contains (lit "PT") pre).
    { intros (a & b & ->). apply Hno. now exists (c :: a), b. }
    assert (Hh : match_here ((c :: pre) ++ lit "PT" ++ rest) = None).
    { destruct (match_here ((c :: pre) ++ lit "PT" ++ rest)) as [mt|] eqn:E;
        [|reflexivity].
      exfalso. apply match_here_Some in E as [r Er].
      destruct pre as [|d pre].
      - cbn in Er. inversion Er.
      - cbn in Er. inversion Er; subst. apply Hno. now exists [], pre. }
    change (duration_match ((c :: pre) ++ lit "PT" ++ rest))
      with (match match_here ((c :: pre) ++ lit "PT" ++ rest) with
            | Some mt => Some mt
            | None => duration_match (pre ++ lit "PT" ++ rest)
            end).
    rewrite Hh. exact (IH Hpre). }
  split; [|exact Hm].
  destruct (match_here_PT rest) as [mt Hmt].
  assert (Hs : duration_match (lit "PT" ++ rest) = Some mt).
  { change (lit "PT" ++ rest) with (80%N :: 84%N :: rest) in *.
    cbn [duration_match]. now rewrite Hmt. }
  unfold formatDuration. rewrite Hm, Hs. reflexivity.
Qed.

Lemma formatDuration_in_context_witness :
  formatDuration (lit "about " ++ lit "PT" ++ lit "5M") = lit "5:00".
Proof.
  assert (H : ~ contains (lit "PT") (lit "about "))
    by (apply duration_match_None_iff; reflexivity).
  destruct (@formatDuration_in_context (lit "about ") (lit "5M") H) as [E _].
  rewrite E. reflexivity.
Defined.

(** ** Ranks *)

Lemma map_rank_mapi_from videos : forall k,
  map rank (mapi_from k (fun v i =>
                           {| rank := i + 1;
                              video := v;
                              durationFormatted := formatDuration (duration v) |})
                      videos)
  = seq (k + 1) (length videos).
Proof.
  induction videos as [|v videos IH]; intros k; [reflexivity|].
  cbn [mapi_from map length seq rank]. f_equal.
  rewrite IH. f_equal.
Qed.

(** X17: the ranks of the output are 1, 2, ..., N in this order, one per
    video: videos with the same view count get different ranks. *)
Theorem jsonOutput_ranks videos :
  map rank (jsonOutput (sortByViews videos)) = seq 1 (length videos).
Proof.
  unfold jsonOutput, mapi. rewrite map_rank_mapi_from.
  cbn [Nat.add]. f_equal. apply Permutation_length, sort_perm.
Qed.

(** ** Whole runs *)

Section Runs.

Context {World : Type}.
Variable fetch : jsstring -> World -> (exn + Api.Response) * World.
Variable API_KEY : option jsstring.

(** X4: a run of [main] that succeeds prints the whole table, one row per
    video after the four heading lines, then writes the file once, with
    one entry per row, and reports that last; nothing is printed on the
    standard output and no file is written while the videos are fetched. *)
Theorem main_success fuel w st' :
  main fetch API_KEY fuel (w, []) = (Ok tt, st') ->
  exists videos tr,
    main_fetch fetch API_KEY fuel (w, []) = (Ok videos, (fst st', tr)) /\
    snd st' = tr ++ map EStdout (tableLines (sortByViews videos))
                 ++ [EWrite (lit "youtube-videos.json")
                            (jsonOutput (sortByViews videos));
                     EStderr (nl ++ nl
                              ++ lit "JSON output saved to youtube-videos.json")] /\
    filter (fun ev => match ev with EStdout _ => true | _ => false end) tr = [] /\
    writes tr = [] /\
    length (tableLines (sortByViews videos)) = 4 + length videos /\
    length (jsonOutput (sortByViews videos)) = length videos.
Proof.
  rewrite main_after_fetch.
  destruct (main_fetch fetch API_KEY fuel (w, [])) as [[videos|e|code|] [w1 tr]] eqn:E;
    try discriminate.
  intros H. injection H as <-. exists videos, tr.
  assert (Hlen : length (sortByViews videos) = length videos)
    by (apply Permutation_length, sort_perm).
  cbn [fst snd]. split; [reflexivity|split; [reflexivity|split; [|split; [|split]]]].
  - apply (@silent_main_fetch World fetch API_KEY
             (fun ev => match ev with EStdout _ => true | _ => false end)
             (fun _ => eq_refl) (fun _ => eq_refl) fuel _ _ _ E).
  - apply (@silent_main_fetch World fetch API_KEY is_write
             (fun _ => eq_refl) (fun _ => eq_refl) fuel _ _ _ E).
  - unfold tableLines, mapi. rewrite length_app, mapi_from_length, Hlen.
    reflexivity.
  - unfold jsonOutput, mapi. now rewrite mapi_from_length.
Qed.

End Runs.

(** ** More concrete runs *)


Lemma getChannelId_marker_witness :
  snd (getChannelId scripted sampleKey (lit "@aidotengineer") (fullScript, []))
  = snd (getChannelId scripted sampleKey (lit "aidotengineer") (fullScript, [])).
Proof.
  assert (H : ~ In 64%N (lit "aidotengineer"))
    by (cbv; intuition discriminate).
  exact (proj1 (@getChannelId_marker Script scripted sampleKey
                  (lit "aidotengineer") (fullScript, []) H)).
Defined.

Lemma getChannelId_not_found_witness :
  exists request,
    getChannelId scripted sampleKey CHANNEL_HANDLE (noChannel, [])
    = (Throw notFound, ([], [] ++ [EFetch request])).
Proof.
  exact (@getChannelId_not_found Script scripted sampleKey CHANNEL_HANDLE
           noChannel [] _ [] eq_refl eq_refl).
Defined.

(** One page with a cursor, then a rejected request. *)
Definition firstPage : Api.Response :=
  {| Api.items := Some [playlistItem "a"; playlistItem "b"];
     Api.nextPageToken := Some (lit "CAUQAA") |}.

Definition secondPageRejected : Script :=
  [ inr firstPage; inl (Rejected (lit "socket hang up")) ].

Lemma getAllVideoIds_fails_witness :
  exists tr',
    getAllVideoIds scripted sampleKey 2 (lit "UU1") (secondPageRejected, [])
    = (Throw (Rejected (lit "socket hang up")), ([], [] ++ tr')) /\
    length (fetches tr') = 1 + 1.
Proof.
  apply (@getAllVideoIds_fails Script scripted sampleKey (lit "UU1")
           [firstPage] (inl (Rejected (lit "socket hang up")))
           (Rejected (lit "socket hang up")) secondPageRejected
           [inl (Rejected (lit "socket hang up"))] [] [] 2).
  - repeat constructor.
  - repeat constructor; discriminate.
  - econstructor; [reflexivity|constructor].
  - reflexivity.
  - reflexivity.
  - simpl. lia.
Defined.

(** Three identifiers asked for; the endpoint answers with two items. *)
Definition threeIds : list jsstring := [lit "a"; lit "b"; lit "c"].

Definition twoItems : Api.Response :=
  {| Api.items := Some [ detailsItem "a" "Agents" 1500;
                         detailsItem "c" "Retrieval" 2300000 ];
     Api.nextPageToken := None |}.

Lemma getVideoDetails_collects_witness :
  exists videos tr',
    getVideoDetails scripted sampleKey threeIds
      (map (fun x => inr (snd x)) (batchAnswers sampleKey 0 threeIds [twoItems]),
       [])
    = (Ok videos, ([], [] ++ tr')) /\
    length videos = 2 /\ length (fetches tr') = 1.
Proof.
  destruct (@getVideoDetails_collects Script scripted sampleKey threeIds
              [twoItems] _ [] [] eq_refl
              ltac:(repeat constructor; discriminate)
              (scripted_answers (batchAnswers sampleKey 0 threeIds [twoItems])))
    as (videos & tr' & Hrun & Hf & Hfe & _).
  exists videos, tr'. split; [exact Hrun|split].
  - symmetry. exact (Forall2_length Hf).
  - now rewrite Hfe.
Defined.

(** 120 identifiers: the first batch is answered, the second request is
    rejected. *)
Definition secondBatchRejected : Script :=
  [ inr (detailsResponse knownVideos (firstn 50 manyIds));
    inl (Rejected (lit "socket hang up")) ].

Lemma getVideoDetails_fails_witness :
  exists tr',
    getVideoDetails scripted sampleKey manyIds (secondBatchRejected, [])
    = (Throw (Rejected (lit "socket hang up")), ([], [] ++ tr')) /\
    length (fetches tr') = 1 + 1.
Proof.
  apply (@getVideoDetails_fails Script scripted sampleKey manyIds
           [detailsResponse knownVideos (firstn 50 manyIds)]
           (inl (Rejected (lit "socket hang up")))
           (Rejected (lit "socket hang up")) secondBatchRejected
           [inl (Rejected (lit "socket hang up"))] [] []).
  - constructor; [|constructor].
    apply matched_complete. intros videoId item. unfold knownVideos.
    destruct (str_eqb videoId (lit "v7")); [discriminate|].
    intros H. inversion H. repeat split; discriminate.
  - vm_compute. lia.
  - econstructor; [reflexivity|constructor].
  - reflexivity.
  - reflexivity.
Defined.




Lemma main_success_witness :
  exists videos tr,
    length videos = 2 /\
    snd (snd (main scripted sampleKey 2 (fullScript, [])))
    = tr ++ map EStdout (tableLines (sortByViews videos))
         ++ [EWrite (lit "youtube-videos.json")
                    (jsonOutput (sortByViews videos));
             EStderr (nl ++ nl
                      ++ lit "JSON output saved to youtube-videos.json")].
Proof.
  destruct (@main_success Script scripted sampleKey 2 fullScript
              (snd (main scripted sampleKey 2 (fullScript, []))))
    as (videos & tr & Hf & Ht & _ & _ & _ & Hl).
  - vm_compute. reflexivity.
  - exists videos, tr. split; [|exact Ht].
    assert (E : fst (main_fetch scripted sampleKey 2 (fullScript, []))
                = Ok videos) by (now rewrite Hf).
    vm_compute in E. inversion E. reflexivity.
Defined.

